(** * DataEmitterActions: the event-to-subscription bridge

    A shallow embedding of
    [packages/data-context/src/actions/DataEmitterActions.ts].

    The file has two classes.  [DataEmitterEvents] holds a Node
    [EventEmitter] in the field [pub] and publishes three named events
    through the private method [_emit].  [DataEmitterActions] adds
    [subscribeTo], which turns one event name into an async iterator:
    [next()] either hands out a synthetic first value or parks on a
    deferred promise that the listener [subscribed] resolves, and
    [return()] takes the listener off the emitter.

    The mutable variables captured by the closures of one [subscribeTo]
    call ([hasSentInitial], [dfd]) are kept in a store that is threaded
    through every operation, and so are the deferred promises made by
    [pDefer()] and the listener table of [pub]. *)

From stdpp Require Import base option list gmap strings.

Set Default Proof Using "Type".

(** ** Values *)

(** The payloads are of TypeScript type [any]; plain data is enough here. *)
#[warnings="-register-all"]
Inductive jsval :=
| JUndefined
| JNull
| JBool (b : bool)
| JNum (n : Z)
| JStr (s : string)
| JObject (fields : list (string * jsval)).

(** What [next()] and [return()] resolve with. *)
Record IteratorResult := mkResult { done : bool; value : jsval }.

(** [keyof DataEmitterEvents]: the public members of the abstract class. *)
Inductive EvtName := EvAuthChange | EvDevChange | EvBrowserStatusChange.

Global Instance EvtName_eq_dec : EqDecision EvtName.
Proof. solve_decision. Defined.

Global Instance EvtName_countable : Countable EvtName.
Proof.
  refine (inj_countable'
    (fun e => match e with
              | EvAuthChange => 0 | EvDevChange => 1 | EvBrowserStatusChange => 2
              end)
    (fun n => match n with
              | 0 => EvAuthChange | 1 => EvDevChange | _ => EvBrowserStatusChange
              end) _).
  by intros [].
Defined.

(** ** Listeners *)

(** How a call ends: it returns or it throws. *)
Inductive Completion := Normal | Throw (err : string).

(** What a function attached to [pub] by other code does when it is
    called.  Such a function is opaque to the bridge: it does not touch
    the variables of any [subscribeTo] call. *)
Inductive Behaviour := Returns | Throws (err : string).

(** A function value registered on [pub].  [Subscribed i] is the closure
    [subscribed] made by the [i]-th call of [subscribeTo]; two listeners
    are the same function exactly when they are equal here. *)
Inductive Listener :=
| Subscribed (i : nat)
| Foreign (k : nat) (b : Behaviour).

Global Instance Completion_eq_dec : EqDecision Completion.
Proof. solve_decision. Defined.
Global Instance Behaviour_eq_dec : EqDecision Behaviour.
Proof. solve_decision. Defined.
Global Instance Listener_eq_dec : EqDecision Listener.
Proof. solve_decision. Defined.

(** ** Node's EventEmitter, as far as the file uses it: [on], [off], [emit] *)

Module EventEmitter.

(** Position of the most recently added copy of [l], the one
    [removeListener] takes out (it scans from the end). *)
Fixpoint last_index (l : Listener) (ls : list Listener) : option nat :=
  match ls with
  | [] => None
  | x :: ls' =>
      match last_index l ls' with
      | Some p => Some (S p)
      | None => if decide (x = l) then Some 0 else None
      end
  end.

(** [list.splice(position, 1)] *)
Fixpoint remove_at (p : nat) (ls : list Listener) : list Listener :=
  match ls, p with
  | [], _ => []
  | _ :: ls', 0 => ls'
  | x :: ls', S p' => x :: remove_at p' ls'
  end.

Definition listeners (events : gmap EvtName (list Listener)) (evt : EvtName)
  : list Listener :=
  default [] (events !! evt).

(** [on] appends; the same function may be added more than once. *)
Definition on (evt : EvtName) (l : Listener)
    (events : gmap EvtName (list Listener)) : gmap EvtName (list Listener) :=
  <[evt := listeners events evt ++ [l]]> events.

(** [off]: nothing happens when [l] is not registered; otherwise one
    copy goes, and the key goes with the last listener. *)
Definition off (evt : EvtName) (l : Listener)
    (events : gmap EvtName (list Listener)) : gmap EvtName (list Listener) :=
  match events !! evt with
  | None => events
  | Some ls =>
      match last_index l ls with
      | None => events
      | Some p =>
          match remove_at p ls with
          | [] => delete evt events
          | ls' => <[evt := ls']> events
          end
      end
  end.

Section Emit.
Context {St : Type}.
(** Calling one listener with the emitted arguments. *)
Variable call : Listener -> list jsval -> St -> St * Completion.

(** [emit] walks a copy of the listener array in registration order.
    There is no handler around the calls: the first listener that
    throws ends the walk and its error leaves [emit]. *)
Fixpoint invoke (ls : list Listener) (args : list jsval) (s : St)
  : St * Completion :=
  match ls with
  | [] => (s, Normal)
  | l :: ls' =>
      match call l args s with
      | (s', Normal) => invoke ls' args s'
      | (s', Throw err) => (s', Throw err)
      end
  end.
End Emit.

End EventEmitter.

(** ** The store *)

(** The variables one [subscribeTo] call closes over.  [dfd] refers to a
    deferred in [deferreds] below, or is [undefined]. *)
Record Closure := mkClosure {
  evt : EvtName;
  sendInitial : bool;
  hasSentInitial : bool;
  dfd : option nat
}.

(** [pub] is the listener table of the emitter, [closures] the
    environments of the [subscribeTo] calls made so far (the index is the
    identity of the iterator and of its [subscribed]), [deferreds] the
    objects made by [pDefer()]: [None] while the promise is pending,
    [Some v] once it is fulfilled with [v]. *)
Record State := mkState {
  pub : gmap EvtName (list Listener);
  closures : list Closure;
  deferreds : list (option jsval)
}.

Definition init : State := mkState ∅ [] [].

(** The promise an async method hands back: already settled, or waiting
    in [await dfd.promise] for the deferred [d]. *)
Inductive Promise := Resolved (r : IteratorResult) | Awaiting (d : nat).

Inductive PromiseState := Pending | Fulfilled (r : IteratorResult).

(** What a promise has become in store [s], once the job queue has run. *)
Definition promise_state (s : State) (p : Promise) : PromiseState :=
  match p with
  | Resolved r => Fulfilled r
  | Awaiting d =>
      match deferreds s !! d with
      | Some (Some v) => Fulfilled (mkResult false v)
      | _ => Pending
      end
  end.

(** ** The code *)

(** [dfd.resolve(val)] of p-defer: a promise is settled once. *)
Definition resolve (d : nat) (val : jsval) (s : State) : State :=
  match deferreds s !! d with
  | Some None => mkState (pub s) (closures s) (<[d := Some val]> (deferreds s))
  | _ => s
  end.

(** [function subscribed (val: any) { dfd?.resolve(val) }] *)
Definition subscribed (i : nat) (val : jsval) (s : State) : State :=
  match closures s !! i with
  | Some c =>
      match dfd c with
      | Some d => resolve d val s
      | None => s
      end
  | None => s
  end.

(** The first positional argument, [undefined] when there is none. *)
Definition arg0 (args : list jsval) : jsval := default JUndefined (head args).

Definition call (l : Listener) (args : list jsval) (s : State)
  : State * Completion :=
  match l with
  | Subscribed i => (subscribed i (arg0 args) s, Normal)
  | Foreign _ Returns => (s, Normal)
  | Foreign _ (Throws err) => (s, Throw err)
  end.

(** [this.pub.emit(evt, ...args)] *)
Definition emit (e : EvtName) (args : list jsval) (s : State)
  : State * Completion :=
  match pub s !! e with
  | None => (s, Normal)
  | Some ls => EventEmitter.invoke call ls args s
  end.

(** [private _emit (evt, ...args) { this.pub.emit(evt, ...args) }] *)
Definition _emit (e : EvtName) (args : list jsval) (s : State)
  : State * Completion :=
  emit e args s.

Definition authChange (s : State) : State * Completion := _emit EvAuthChange [] s.
Definition devChange (s : State) : State * Completion := _emit EvDevChange [] s.
Definition browserStatusChange (s : State) : State * Completion :=
  _emit EvBrowserStatusChange [] s.

(** [subscribeTo (evt, sendInitial = true)]: fresh variables, the listener
    goes on the emitter, the iterator is returned. *)
Definition subscribeTo (e : EvtName) (sendInitial : bool) (s : State)
  : nat * State :=
  let i := length (closures s) in
  (i, mkState (EventEmitter.on e (Subscribed i) (pub s))
              (closures s ++ [mkClosure e sendInitial false None])
              (deferreds s)).

(** [iterator.next()].  [None] only for an [i] that no [subscribeTo]
    call returned. *)
Definition next (i : nat) (s : State) : option (Promise * State) :=
  c ← closures s !! i;
  if negb (hasSentInitial c) && sendInitial c then
    Some (Resolved (mkResult false (JObject [])),
          mkState (pub s)
                  (<[i := mkClosure (evt c) (sendInitial c) true (dfd c)]> (closures s))
                  (deferreds s))
  else
    let d := length (deferreds s) in
    Some (Awaiting d,
          mkState (pub s)
                  (<[i := mkClosure (evt c) (sendInitial c) (hasSentInitial c) (Some d)]>
                     (closures s))
                  (deferreds s ++ [None])).

(** [iterator.return()] *)
Definition return_ (i : nat) (s : State) : option (Promise * State) :=
  c ← closures s !! i;
  Some (Resolved (mkResult true JUndefined),
        mkState (EventEmitter.off (evt c) (Subscribed i) (pub s))
                (<[i := mkClosure (evt c) (sendInitial c) (hasSentInitial c) None]>
                   (closures s))
                (deferreds s)).

(** ** Runs

    A client of the class interleaves calls; [Op] names one call and
    [perform] makes it.  A call on an iterator that does not exist is
    left out of the run. *)

Inductive Op :=
| OSubscribeTo (e : EvtName) (sendInitial : bool)
| ONext (i : nat)
| OReturn (i : nat)
| OEmit (e : EvtName) (args : list jsval).

Inductive Out :=
| OutIterator (i : nat)
| OutPromise (p : option Promise)
| OutCompletion (c : Completion).

Definition perform (o : Op) (s : State) : Out * State :=
  match o with
  | OSubscribeTo e b => let '(i, s') := subscribeTo e b s in (OutIterator i, s')
  | ONext i =>
      match next i s with
      | Some (p, s') => (OutPromise (Some p), s')
      | None => (OutPromise None, s)
      end
  | OReturn i =>
      match return_ i s with
      | Some (p, s') => (OutPromise (Some p), s')
      | None => (OutPromise None, s)
      end
  | OEmit e args => let '(s', c) := _emit e args s in (OutCompletion c, s')
  end.

Definition step (o : Op) (s : State) : State := (perform o s).2.

Fixpoint exec (ops : list Op) (s : State) : list Out * State :=
  match ops with
  | [] => ([], s)
  | o :: ops' =>
      let '(out, s') := perform o s in
      let '(outs, t) := exec ops' s' in
      (out :: outs, t)
  end.

Definition run (ops : list Op) (s : State) : State := (exec ops s).2.

(** The promises that the [next()] calls on iterator [i] returned. *)
Fixpoint pulls_of (i : nat) (ops : list Op) (outs : list Out) : list Promise :=
  match ops, outs with
  | ONext j :: ops', OutPromise (Some p) :: outs' =>
      if decide (j = i) then p :: pulls_of i ops' outs' else pulls_of i ops' outs'
  | _ :: ops', _ :: outs' => pulls_of i ops' outs'
  | _, _ => []
  end.

(** Calls that leave iterator [i] alone / that do not cancel it. *)
Definition foreign_to (i : nat) (o : Op) : Prop :=
  match o with
  | ONext j | OReturn j => j ≠ i
  | _ => True
  end.

Definition not_cancel (i : nat) (o : Op) : Prop :=
  match o with
  | OReturn j => j ≠ i
  | _ => True
  end.

(** The public methods of [DataEmitterActions] that reach [pub]: the three
    publishers, [subscribeTo], and the two methods of an iterator. *)
Inductive Call :=
| CAuthChange
| CDevChange
| CBrowserStatusChange
| CSubscribeTo (e : EvtName) (sendInitial : bool)
| CNext (i : nat)
| CReturn (i : nat).

Definition api_step (c : Call) (s : State) : State :=
  match c with
  | CAuthChange => (authChange s).1
  | CDevChange => (devChange s).1
  | CBrowserStatusChange => (browserStatusChange s).1
  | CSubscribeTo e b => (subscribeTo e b s).2
  | CNext i => from_option snd s (next i s)
  | CReturn i => from_option snd s (return_ i s)
  end.

Definition api_run (cs : list Call) (s : State) : State :=
  foldl (fun s c => api_step c s) s cs.

(** ** Invariants of the store *)

Definition sub_id (l : Listener) : option nat :=
  match l with
  | Subscribed i => Some i
  | Foreign _ _ => None
  end.

Definition throws (l : Listener) : option string :=
  match l with
  | Foreign _ (Throws err) => Some err
  | _ => None
  end.

(** No function registered under [e] throws. *)
Definition calm (e : EvtName) (s : State) : Prop :=
  Forall (fun l => throws l = None) (EventEmitter.listeners (pub s) e).

(** Every [subscribed] on the emitter belongs to a [subscribeTo] call for
    that event and is there once; every [dfd] refers to a deferred that
    exists, and no two iterators share one. *)
Record wf (s : State) : Prop := mkWf {
  wf_registered : forall e i,
    Subscribed i ∈ EventEmitter.listeners (pub s) e ->
    exists c, closures s !! i = Some c /\ evt c = e;
  wf_once : forall e, NoDup (omap sub_id (EventEmitter.listeners (pub s) e));
  wf_dfd_bound : forall i c d,
    closures s !! i = Some c -> dfd c = Some d -> d < length (deferreds s);
  wf_dfd_inj : forall i j ci cj d,
    closures s !! i = Some ci -> closures s !! j = Some cj ->
    dfd ci = Some d -> dfd cj = Some d -> i = j
}.

(** A pending deferred that no registered [subscribed] can reach. *)
Definition orphan (d : nat) (s : State) : Prop :=
  deferreds s !! d = Some None /\
  forall j c e, closures s !! j = Some c -> dfd c = Some d ->
                Subscribed j ∉ EventEmitter.listeners (pub s) e.

Definition unregistered (i : nat) (s : State) : Prop :=
  forall e, Subscribed i ∉ EventEmitter.listeners (pub s) e.

(** Iterator [i] creates a waiter on its next [next()]. *)
Definition waits (c : Closure) : Prop :=
  hasSentInitial c = true \/ sendInitial c = false.

(** The store with the two flags of iterator [i] set to what
    [subscribeTo (evt, false)] starts from. *)
Definition plain (c : Closure) : Closure := mkClosure (evt c) false false (dfd c).

Definition without_initial (i : nat) (s : State) : State :=
  mkState (pub s) (alter plain i (closures s)) (deferreds s).

(** ** What the consumer of one iterator is promised

    The calls seen from iterator [i] on event [e]: its own pulls and the
    signals on [e], in the order they were made. *)
Inductive Event := Pull | Signal (payload : jsval).

Definition event_of (i : nat) (e : EvtName) (o : Op) : option Event :=
  match o with
  | ONext j => if decide (j = i) then Some Pull else None
  | OEmit e' args => if decide (e' = e) then Some (Signal (arg0 args)) else None
  | _ => None
  end.

(** The signal that arrives while the pull just made is the pending one. *)
Definition arrives (evs : list Event) : option jsval :=
  match evs with
  | Signal p :: _ => Some p
  | _ => None
  end.

(** Each pull receives the signal that follows it directly; a signal that
    follows another signal (or comes before the first pull) is dropped. *)
Fixpoint delivered (evs : list Event) : list (option jsval) :=
  match evs with
  | [] => []
  | Pull :: evs' => arrives evs' :: delivered evs'
  | Signal _ :: evs' => delivered evs'
  end.

Definition outcome (v : option jsval) : PromiseState :=
  match v with
  | Some p => Fulfilled (mkResult false p)
  | None => Pending
  end.

(** [off] seen on one listener array. *)
Definition remove_last (l : Listener) (ls : list Listener) : list Listener :=
  match EventEmitter.last_index l ls with
  | Some p => EventEmitter.remove_at p ls
  | None => ls
  end.

(** What the ordering argument carries from call to call: the iterator is
    registered on its event, creates waiters, and nothing registered on
    the event throws. *)
Record live (i : nat) (e : EvtName) (s : State) (c : Closure) : Prop := mkLive {
  live_wf : wf s;
  live_closure : closures s !! i = Some c;
  live_evt : evt c = e;
  live_waits : waits c;
  live_registered : Subscribed i ∈ EventEmitter.listeners (pub s) e;
  live_calm : calm e s
}.

(** A store in which other code has attached a function that throws. *)
Definition faulty : State :=
  mkState {[ EvAuthChange := [Foreign 0 (Throws "boom")] ]} [] [].

(** The public call seen as one of the calls of a run. *)
Definition op_of_call (m : Call) : Op :=
  match m with
  | CAuthChange => OEmit EvAuthChange []
  | CDevChange => OEmit EvDevChange []
  | CBrowserStatusChange => OEmit EvBrowserStatusChange []
  | CSubscribeTo e b => OSubscribeTo e b
  | CNext i => ONext i
  | CReturn i => OReturn i
  end.

(** A promise that waits for a deferred, as opposed to one settled at once. *)
Definition awaits (p : Promise) : Prop :=
  match p with
  | Awaiting _ => True
  | Resolved _ => False
  end.

(** ** Broadcasts to the front ends: [toApp], [toLaunchpad]

    [ctx.coreData.servers] holds two Socket.io servers, each of which may
    be missing.  A server is kept as the list of messages it has been
    asked to emit. *)

Record Broadcast := mkBroadcast { channel : string; sent : list jsval }.

Record Servers := mkServers {
  appSocketServer : option (list Broadcast);
  gqlSocketServer : option (list Broadcast)
}.

(** [server?.emit('data-context-push', ...args)] *)
Definition push (args : list jsval) (server : option (list Broadcast))
  : option (list Broadcast) :=
  match server with
  | Some log => Some (log ++ [mkBroadcast "data-context-push" args])
  | None => None
  end.

Definition toApp (args : list jsval) (sv : Servers) : Servers :=
  mkServers (push args (appSocketServer sv)) (gqlSocketServer sv).

Definition toLaunchpad (args : list jsval) (sv : Servers) : Servers :=
  mkServers (appSocketServer sv) (push args (gqlSocketServer sv)).

Inductive Target := ToApp | ToLaunchpad.

Definition broadcast (m : Target * list jsval) (sv : Servers) : Servers :=
  match m.1 with
  | ToApp => toApp m.2 sv
  | ToLaunchpad => toLaunchpad m.2 sv
  end.

Definition broadcasts (ms : list (Target * list jsval)) (sv : Servers) : Servers :=
  foldl (fun sv m => broadcast m sv) sv ms.

(** The arguments of the messages of a run that go to one target. *)
Definition sent_to (t : Target) (ms : list (Target * list jsval)) : list Broadcast :=
  omap (fun m => match m.1, t with
                 | ToApp, ToApp | ToLaunchpad, ToLaunchpad =>
                     Some (mkBroadcast "data-context-push" m.2)
                 | _, _ => None
                 end) ms.

(** ** ProjectActions.ts *)

Module ProjectActions.

(** A method resolves or throws an [Error] with a message. *)
Inductive Result (A : Type) := Ok (a : A) | Failed (msg : string).
Arguments Ok {A} a.
Arguments Failed {A} msg.

Inductive TestingType := e2e | component.

(** An entry of [coreData.app.projects].  The objects this file makes
    have [projectRoot] only; [others] stands for further fields that
    entries made elsewhere may carry. *)
Record ProjectShape := mkProject {
  projectRoot : string;
  others : list (string * jsval)
}.

(** The object [setActiveProject] stores. *)
Record ActiveProject := mkActive {
  active_projectRoot : string;
  title : string;
  ctPluginsInitialized : bool;
  e2ePluginsInitialized : bool;
  isFirstTimeCT : bool;
  isFirstTimeE2E : bool
}.

Record FoundBrowser := mkBrowser { browser_name : string }.

(** [Cypress.Spec] as [launchProject] builds it. *)
Record Spec := mkSpec {
  spec_name : string;
  absolute : string;
  relative : string;
  specType : string
}.

(** The calls made on [ctx._apis.projectApi]. *)
Inductive ApiCall :=
| InsertProjectToCache (root : string)
| RemoveProjectFromCache (root : string)
| InitializeProject (launchArgs : gmap string jsval) (launchOptions : jsval)
                    (browsers : list FoundBrowser)
| LaunchProject (browser : FoundBrowser) (spec : Spec).

(** [ctx.coreData.app], and the API calls made so far. *)
Record Ctx := mkCtx {
  projects : list ProjectShape;
  activeProject : option ActiveProject;
  api_calls : list ApiCall
}.

(** What the methods use and this file does not define: Node's [path],
    [ctx.fs.stat] ([None] when it rejects, else [isDirectory()]),
    [ctx.project.isFirstTimeAccessing], which is awaited and so resolves
    with a boolean or rejects with an error, and the getter
    [ctx.projectsList]. *)
Record Env := mkEnv {
  path_parse : string -> string * string;
  path_join : string -> string -> string;
  fs_stat : string -> option bool;
  isFirstTimeAccessing : string -> TestingType -> Result bool;
  projectsList : Ctx -> list ProjectShape
}.

(** [async setActiveProject (projectRoot)].  The object is built before
    it is assigned: [isFirstTimeAccessing] is awaited for [component],
    then for [e2e], and when one of them rejects the method rejects with
    that error and nothing has been assigned. *)
Definition setActiveProject (env : Env) (root : string) (ctx : Ctx) : Ctx * Result unit :=
  match isFirstTimeAccessing env root component with
  | Failed msg => (ctx, Failed msg)
  | Ok firstCT =>
      match isFirstTimeAccessing env root e2e with
      | Failed msg => (ctx, Failed msg)
      | Ok firstE2E =>
          (mkCtx (projects ctx)
                 (Some (mkActive root "" false false firstCT firstE2E))
                 (api_calls ctx),
           Ok tt)
      end
  end.

(** [private async getDirectoryPath (projectRoot)]: whatever goes wrong
    inside the [try] ends in the one error. *)
Definition getDirectoryPath (env : Env) (root : string) : Result string :=
  let '(dir, base) := path_parse env root in
  let fullPath := path_join env dir base in
  match fs_stat env fullPath with
  | Some true => Ok fullPath
  | Some false => Ok dir
  | None =>
      Failed ("Cannot add " +:+ root +:+
              " to projects as it does not exist in the file system")
  end.

Definition has_root (root : string) (ps : list ProjectShape) : bool :=
  bool_decide (is_Some (list_find (fun x => projectRoot x = root) ps)).

(** [async addProject (args)], with [args.path] and [args.open].  The
    project is pushed and the cache written before [setActiveProject] is
    awaited. *)
Definition addProject (env : Env) (path : string) (open : bool) (ctx : Ctx)
  : Ctx * Result unit :=
  match getDirectoryPath env path with
  | Failed msg => (ctx, Failed msg)
  | Ok root =>
      let ctx1 :=
        if has_root root (projects ctx) then ctx
        else mkCtx (projects ctx ++ [mkProject root []])
                   (activeProject ctx)
                   (api_calls ctx ++ [InsertProjectToCache root]) in
      if open then setActiveProject env root ctx1 else (ctx1, Ok tt)
  end.

(** [removeProject (projectRoot)] *)
Definition removeProject (env : Env) (root : string) (ctx : Ctx) : Ctx * Result unit :=
  if has_root root (projectsList env ctx) then
    (mkCtx (filter (fun project => projectRoot project ≠ root) (projects ctx))
           (activeProject ctx)
           (api_calls ctx ++ [RemoveProjectFromCache root]),
     Ok tt)
  else
    (ctx, Failed ("Cannot remove " +:+ root +:+ ", it is not a known project")).

(** [async loadProjects ()]; [cached] is what
    [api.getProjectRootsFromCache()] resolves with. *)
Definition loadProjects (cached : list string) (ctx : Ctx) : Ctx :=
  mkCtx (projects ctx ++ map (fun root => mkProject root []) cached)
        (activeProject ctx) (api_calls ctx).

Definition testingType_name (t : TestingType) : string :=
  match t with e2e => "e2e" | component => "component" end.

(** [!this.ctx.activeProject?.projectRoot]: no active project, or one
    whose [projectRoot] is the empty string. *)
Definition no_projectRoot (active : option ActiveProject) : bool :=
  match active with
  | Some a => bool_decide (active_projectRoot a = "")
  | None => true
  end.

(** [!this.ctx.wizardData.chosenTestingType] *)
Definition no_testingType (chosenTestingType : option TestingType) : bool :=
  match chosenTestingType with
  | Some _ => false
  | None => true
  end.

Definition testingType_value (chosenTestingType : option TestingType) : jsval :=
  match chosenTestingType with
  | Some t => JStr (testingType_name t)
  | None => JNull
  end.

(** [async initializeActiveProject ()], given what it reads from [ctx]:
    [ctx.activeProject], [wizardData.chosenTestingType], [browserList],
    [launchArgs], [launchOptions].  It returns the call it makes.  The two
    checks are made one after the other, as written; reading
    [projectRoot] of a missing active project would be a [TypeError]. *)
Definition initializeActiveProject
    (active : option ActiveProject) (chosenTestingType : option TestingType)
    (browserList : option (list FoundBrowser))
    (launchArgs : gmap string jsval) (launchOptions : jsval) : Result ApiCall :=
  if no_projectRoot active || no_testingType chosenTestingType then
    Failed "Cannot initialize project without an active project"
  else if no_testingType chosenTestingType then
    Failed "Cannot initialize project without choosing testingType"
  else
    match active with
    | None => Failed "TypeError: Cannot read properties of null (reading 'projectRoot')"
    | Some a =>
        Ok (InitializeProject
              (<["testingType" := testingType_value chosenTestingType]>
                 (<["projectRoot" := JStr (active_projectRoot a)]> launchArgs))
              launchOptions
              (default [] browserList))
    end.

(** [async launchProject ()], given [wizardData.chosenBrowser],
    [appData.browsers] and [wizardData.chosenTestingType]. *)
Definition launchProject
    (chosenBrowser : option FoundBrowser) (browsers : option (list FoundBrowser))
    (chosenTestingType : option TestingType) : Result ApiCall :=
  let browser :=
    match chosenBrowser with
    | Some b => Some b
    | None => match browsers with Some bs => head bs | None => None end
    end in
  match browser with
  | None => Failed "Could not find browser"
  | Some b =>
      Ok (LaunchProject b
            (mkSpec "" "" ""
               (match chosenTestingType with
                | Some e2e => "integration"
                | _ => "component"
                end)))
  end.

End ProjectActions.

(** ** The dependency installer of the system tests:
       [makeWorkspacePackagesAbsolute] *)

Module DepInstaller.

(** A [Dependencies] object, as the pairs that [for (const dep in deps)]
    visits, in that order. *)
Definition Dependencies := list (string * string).

Record PkgJson := mkPkgJson {
  dependencies : option Dependencies;
  devDependencies : option Dependencies;
  optionalDependencies : option Dependencies
}.

(** The inner loop.  [pathToPackage] is [None] when [require.resolve]
    throws; the error then leaves the function. *)
Fixpoint absolutize (pathToPackage : string -> option string)
    (deps : Dependencies) (updatedDeps : list string)
  : option (Dependencies * list string) :=
  match deps with
  | [] => Some ([], updatedDeps)
  | (dep, version) :: rest =>
      if String.prefix "file:" version then
        match pathToPackage dep with
        | None => None
        | Some absPath =>
            match absolutize pathToPackage rest (updatedDeps ++ [dep]) with
            | Some (rest', u) => Some ((dep, "file:" +:+ absPath) :: rest', u)
            | None => None
            end
        end
      else
        match absolutize pathToPackage rest updatedDeps with
        | Some (rest', u) => Some ((dep, version) :: rest', u)
        | None => None
        end
  end.

(** A field that is missing is not iterated. *)
Definition absolutize_field (pathToPackage : string -> option string)
    (field : option Dependencies) (updatedDeps : list string)
  : option (option Dependencies * list string) :=
  match field with
  | None => Some (None, updatedDeps)
  | Some deps =>
      match absolutize pathToPackage deps updatedDeps with
      | Some (deps', u) => Some (Some deps', u)
      | None => None
      end
  end.

(** [makeWorkspacePackagesAbsolute]: the object that is written back and
    the list that is returned, or [None] when a package is not found. *)
Definition makeWorkspacePackagesAbsolute (pathToPackage : string -> option string)
    (pkgJson : PkgJson) : option (PkgJson * list string) :=
  match absolutize_field pathToPackage (dependencies pkgJson) [] with
  | None => None
  | Some (d1, u1) =>
      match absolutize_field pathToPackage (devDependencies pkgJson) u1 with
      | None => None
      | Some (d2, u2) =>
          match absolutize_field pathToPackage (optionalDependencies pkgJson) u2 with
          | None => None
          | Some (d3, u3) => Some (mkPkgJson d1 d2 d3, u3)
          end
      end
  end.

(** The names of the entries whose version starts with [file:]. *)
Definition file_deps (deps : list (string * string)) : list string :=
  map fst (filter (fun kv => String.prefix "file:" kv.2 = true) deps).

Definition field_deps (field : option Dependencies) : list string :=
  file_deps (default [] field).

(** An entry after the loop, against the entry before it. *)
Definition rewritten (pathToPackage : string -> option string)
    (old new : string * string) : Prop :=
  new.1 = old.1 /\
  if String.prefix "file:" old.2
  then exists absPath, pathToPackage old.1 = Some absPath /\ new.2 = "file:" +:+ absPath
  else new.2 = old.2.

Definition all_file_deps (pkgJson : PkgJson) : list string :=
  field_deps (dependencies pkgJson) ++ field_deps (devDependencies pkgJson) ++
  field_deps (optionalDependencies pkgJson).

End DepInstaller.

(** * Properties *)

(** ** The emitter *)

Section EmitterFacts.
Import EventEmitter.
Implicit Types (l : Listener) (ls : list Listener)
               (events : gmap EvtName (list Listener)) (e : EvtName).

Lemma last_index_None l ls : last_index l ls = None <-> l ∉ ls.
Proof.
  induction ls as [|x ls IH]; simpl.
  - split; [intros _; apply not_elem_of_nil | done].
  - rewrite not_elem_of_cons. destruct (last_index l ls) as [p|].
    + split; [done | intros [_ Hn]; by apply IH in Hn].
    + case_decide; subst.
      * split; [done | by intros [? _]].
      * split; [intros _; split; [done | by apply IH] | done].
Qed.

Lemma last_index_Some l ls p :
  last_index l ls = Some p ->
  exists pre post, ls = pre ++ l :: post /\ length pre = p /\ (l ∉ post).
Proof.
  revert p. induction ls as [|x ls IH]; intros p; simpl; [done|].
  destruct (last_index l ls) as [q|] eqn:Hq.
  - intros [= <-]. destruct (IH q eq_refl) as (pre & post & -> & <- & Hn).
    by exists (x :: pre), post.
  - case_decide; [|done]. intros [= <-]. subst x.
    exists [], ls. split_and!; [done..|]. by apply last_index_None.
Qed.

Lemma remove_at_middle pre x post : remove_at (length pre) (pre ++ x :: post) = pre ++ post.
Proof. induction pre as [|y pre IH]; simpl; [done | by rewrite IH]. Qed.

Lemma remove_last_absent l ls : l ∉ ls -> remove_last l ls = ls.
Proof. intros H. unfold remove_last. by apply last_index_None in H as ->. Qed.

Lemma remove_last_present l ls :
  l ∈ ls ->
  exists pre post,
    ls = pre ++ l :: post /\ (l ∉ post) /\ remove_last l ls = pre ++ post.
Proof.
  intros Hin. unfold remove_last.
  destruct (last_index l ls) as [p|] eqn:Hp.
  - destruct (last_index_Some _ _ _ Hp) as (pre & post & -> & <- & Hn).
    exists pre, post. by rewrite remove_at_middle.
  - by apply last_index_None in Hp.
Qed.

Lemma remove_last_incl l x ls : x ∈ remove_last l ls -> x ∈ ls.
Proof.
  destruct (decide (l ∈ ls)) as [Hin|Hn].
  - destruct (remove_last_present _ _ Hin) as (pre & post & -> & _ & ->).
    rewrite !elem_of_app, elem_of_cons. tauto.
  - by rewrite remove_last_absent.
Qed.

Lemma remove_last_other l x ls : x ≠ l -> x ∈ ls -> x ∈ remove_last l ls.
Proof.
  intros Hne. destruct (decide (l ∈ ls)) as [Hin|Hn].
  - destruct (remove_last_present _ _ Hin) as (pre & post & -> & _ & ->).
    rewrite !elem_of_app, elem_of_cons. intros [?|[?|?]]; [by left|done|by right].
  - by rewrite remove_last_absent.
Qed.

Lemma listeners_on e l events e' :
  listeners (on e l events) e' =
  if decide (e' = e) then listeners events e ++ [l] else listeners events e'.
Proof.
  unfold on, listeners at 1. case_decide; subst.
  - by rewrite lookup_insert_eq.
  - by rewrite lookup_insert_ne.
Qed.

Lemma listeners_off e l events e' :
  listeners (off e l events) e' =
  if decide (e' = e) then remove_last l (listeners events e) else listeners events e'.
Proof.
  unfold off, remove_last, listeners.
  destruct (events !! e) as [ls|] eqn:He; simpl.
  - destruct (last_index l ls) as [p|] eqn:Hp.
    + destruct (remove_at p ls) eqn:Hr; case_decide; subst;
        rewrite ?lookup_delete_eq, ?lookup_delete_ne, ?lookup_insert_eq,
                ?lookup_insert_ne by done; done.
    + case_decide; subst; by rewrite ?He.
  - case_decide; subst; by rewrite ?He.
Qed.

Lemma off_absent e l events : l ∉ listeners events e -> off e l events = events.
Proof.
  unfold off, listeners. destruct (events !! e) as [ls|]; simpl; [|done].
  intros H. by apply last_index_None in H as ->.
Qed.

End EmitterFacts.

(** ** One listener call, one [emit] *)

Section CallFacts.
Implicit Types (s : State) (d i : nat) (v : jsval) (args : list jsval)
               (ls : list Listener).

Lemma resolve_pub d v s : pub (resolve d v s) = pub s.
Proof. unfold resolve. by repeat case_match. Qed.

Lemma resolve_closures d v s : closures (resolve d v s) = closures s.
Proof. unfold resolve. by repeat case_match. Qed.

Lemma resolve_length d v s :
  length (deferreds (resolve d v s)) = length (deferreds s).
Proof. unfold resolve. repeat case_match; simpl; by rewrite ?length_insert. Qed.

Lemma resolve_pending d v s :
  deferreds s !! d = Some None -> deferreds (resolve d v s) !! d = Some (Some v).
Proof.
  intros H. unfold resolve. rewrite H. simpl.
  apply list_lookup_insert_eq. by eapply lookup_lt_Some.
Qed.

Lemma resolve_other d v s d' :
  d' ≠ d -> deferreds (resolve d v s) !! d' = deferreds s !! d'.
Proof.
  intros Hne. unfold resolve. repeat case_match; simpl; try done.
  by rewrite list_lookup_insert_ne.
Qed.

Lemma resolve_settled d v s d' w :
  deferreds s !! d' = Some (Some w) ->
  deferreds (resolve d v s) !! d' = Some (Some w).
Proof.
  intros H. destruct (decide (d' = d)) as [->|Hne].
  - unfold resolve. by rewrite H.
  - by rewrite resolve_other.
Qed.

Lemma call_pub l args s : pub (call l args s).1 = pub s.
Proof.
  destruct l as [i|k []]; simpl; try done.
  unfold subscribed. repeat case_match; by rewrite ?resolve_pub.
Qed.

Lemma call_closures l args s : closures (call l args s).1 = closures s.
Proof.
  destruct l as [i|k []]; simpl; try done.
  unfold subscribed. repeat case_match; by rewrite ?resolve_closures.
Qed.

Lemma call_length l args s :
  length (deferreds (call l args s).1) = length (deferreds s).
Proof.
  destruct l as [i|k []]; simpl; try done.
  unfold subscribed. repeat case_match; by rewrite ?resolve_length.
Qed.

(** The bridge's own listener never throws. *)
Lemma call_subscribed_normal i args s : (call (Subscribed i) args s).2 = Normal.
Proof. done. Qed.

Lemma call_completion l args s :
  (call l args s).2 = match throws l with Some err => Throw err | None => Normal end.
Proof. by destruct l as [i|k []]. Qed.

(** A call leaves a deferred as it is or fulfils it, pending so far,
    with the first argument. *)
Lemma call_lookup l args s d :
  deferreds (call l args s).1 !! d = deferreds s !! d \/
  (deferreds s !! d = Some None /\
   deferreds (call l args s).1 !! d = Some (Some (arg0 args))).
Proof.
  destruct l as [i|k []]; simpl; auto.
  unfold subscribed. destruct (closures s !! i) as [c|]; auto.
  destruct (dfd c) as [d'|]; auto.
  destruct (decide (d = d')) as [->|Hne]; [|left; by apply resolve_other].
  destruct (deferreds s !! d') as [[w|]|] eqn:Hd.
  - left. by apply resolve_settled.
  - right. split; [done | by apply resolve_pending].
  - left. unfold resolve. by rewrite Hd.
Qed.

Lemma call_frame l args s d :
  (forall i c, l = Subscribed i -> closures s !! i = Some c -> dfd c ≠ Some d) ->
  deferreds (call l args s).1 !! d = deferreds s !! d.
Proof.
  intros H. destruct l as [i|k []]; simpl; auto.
  unfold subscribed. destruct (closures s !! i) as [c|] eqn:Hc; auto.
  destruct (dfd c) as [d'|] eqn:Hd; auto.
  apply resolve_other. intros ->. by eapply H.
Qed.

Lemma call_own i c d args s :
  closures s !! i = Some c -> dfd c = Some d -> deferreds s !! d = Some None ->
  deferreds (call (Subscribed i) args s).1 !! d = Some (Some (arg0 args)).
Proof.
  intros Hc Hd Hp. simpl. unfold subscribed. rewrite Hc, Hd.
  by apply resolve_pending.
Qed.

Import EventEmitter.

Lemma invoke_cons l ls args s :
  invoke call (l :: ls) args s =
  match throws l with
  | Some err => ((call l args s).1, Throw err)
  | None => invoke call ls args (call l args s).1
  end.
Proof.
  simpl. pose proof (call_completion l args s) as H.
  destruct (call l args s) as [s' [|err]]; simpl in *;
    destruct (throws l); by simplify_eq.
Qed.

Lemma invoke_pub ls args s : pub (invoke call ls args s).1 = pub s.
Proof.
  revert s. induction ls as [|l ls IH]; intros s; [done|].
  rewrite invoke_cons. destruct (throws l); simpl; [apply call_pub|].
  by rewrite IH, call_pub.
Qed.

Lemma invoke_closures ls args s : closures (invoke call ls args s).1 = closures s.
Proof.
  revert s. induction ls as [|l ls IH]; intros s; [done|].
  rewrite invoke_cons. destruct (throws l); simpl; [apply call_closures|].
  by rewrite IH, call_closures.
Qed.

Lemma invoke_length ls args s :
  length (deferreds (invoke call ls args s).1) = length (deferreds s).
Proof.
  revert s. induction ls as [|l ls IH]; intros s; [done|].
  rewrite invoke_cons. destruct (throws l); simpl; [apply call_length|].
  by rewrite IH, call_length.
Qed.

Lemma invoke_lookup ls args s d :
  deferreds (invoke call ls args s).1 !! d = deferreds s !! d \/
  (deferreds s !! d = Some None /\
   deferreds (invoke call ls args s).1 !! d = Some (Some (arg0 args))).
Proof.
  revert s. induction ls as [|l ls IH]; intros s; [by left|].
  rewrite invoke_cons. destruct (throws l); simpl; [apply call_lookup|].
  destruct (IH (call l args s).1) as [Heq|[Hp Hr]];
    destruct (call_lookup l args s d) as [Heq'|[Hp' Hr']].
  - left. congruence.
  - right. split; [done | congruence].
  - right. split; [congruence | done].
  - congruence.
Qed.

Lemma invoke_settled ls args s d w :
  deferreds s !! d = Some (Some w) ->
  deferreds (invoke call ls args s).1 !! d = Some (Some w).
Proof.
  intros H. destruct (invoke_lookup ls args s d) as [->|[? _]]; congruence.
Qed.

Lemma invoke_frame ls args s d :
  (forall i c, Subscribed i ∈ ls -> closures s !! i = Some c -> dfd c ≠ Some d) ->
  deferreds (invoke call ls args s).1 !! d = deferreds s !! d.
Proof.
  revert s. induction ls as [|l ls IH]; intros s H; [done|].
  assert (deferreds (call l args s).1 !! d = deferreds s !! d) as Hl.
  { apply call_frame. intros i c -> ?. apply (H i); [left | done]. }
  rewrite invoke_cons. destruct (throws l); simpl; [done|].
  rewrite IH, Hl; [done|].
  intros i c Hin. rewrite call_closures. apply (H i). by right.
Qed.

(** A run of [emit] that returns has called every listener: the waiter
    of a registered iterator is fulfilled with the first argument. *)
Lemma invoke_own ls args s s' i c d :
  Subscribed i ∈ ls ->
  closures s !! i = Some c -> dfd c = Some d -> deferreds s !! d = Some None ->
  invoke call ls args s = (s', Normal) ->
  deferreds s' !! d = Some (Some (arg0 args)).
Proof.
  revert s. induction ls as [|l ls IH]; intros s Hin Hc Hd Hp Hrun.
  { by apply elem_of_nil in Hin. }
  rewrite invoke_cons in Hrun. destruct (throws l) eqn:Ht; [done|].
  apply elem_of_cons in Hin as [<-|Hin].
  - pose proof (call_own i c d args s Hc Hd Hp) as Hr.
    pose proof (invoke_settled ls args _ d _ Hr) as Hs.
    by rewrite Hrun in Hs.
  - destruct (call_lookup l args s d) as [Heq|[_ Hr]].
    + apply (IH (call l args s).1); rewrite ?call_closures; congruence.
    + pose proof (invoke_settled ls args _ d _ Hr) as Hs.
      by rewrite Hrun in Hs.
Qed.

Lemma invoke_calm ls args s :
  Forall (fun l => throws l = None) ls -> (invoke call ls args s).2 = Normal.
Proof.
  revert s. induction ls as [|l ls IH]; intros s H; [done|].
  rewrite invoke_cons. inversion_clear H as [|?? Hl Hls]. rewrite Hl. by apply IH.
Qed.

(** The first thrower ends [emit]: what is registered behind it has no
    part in the result. *)
Lemma invoke_thrower pre k err post args s :
  Forall (fun l => throws l = None) pre ->
  invoke call (pre ++ Foreign k (Throws err) :: post) args s =
  ((invoke call pre args s).1, Throw err).
Proof.
  revert s. induction pre as [|l pre IH]; intros s H; [done|].
  inversion_clear H as [|?? Hl Hpre]. simpl app.
  rewrite !invoke_cons, Hl. by apply IH.
Qed.

End CallFacts.

(** ** The methods, one at a time *)

Section MethodFacts.
Import EventEmitter.
Implicit Types (s t : State) (d i j : nat) (c : Closure) (e : EvtName).

Lemma emit_invoke e args s :
  emit e args s = invoke call (listeners (pub s) e) args s.
Proof. unfold emit, listeners. by destruct (pub s !! e). Qed.

Lemma next_Some i s p s' :
  next i s = Some (p, s') ->
  exists c, closures s !! i = Some c /\ pub s' = pub s /\
    ((hasSentInitial c = false /\ sendInitial c = true /\
      p = Resolved (mkResult false (JObject [])) /\
      closures s' = <[i := mkClosure (evt c) (sendInitial c) true (dfd c)]> (closures s) /\
      deferreds s' = deferreds s) \/
     (waits c /\ p = Awaiting (length (deferreds s)) /\
      closures s' =
        <[i := mkClosure (evt c) (sendInitial c) (hasSentInitial c)
                         (Some (length (deferreds s)))]> (closures s) /\
      deferreds s' = deferreds s ++ [None])).
Proof.
  unfold next. destruct (closures s !! i) as [c|]; simpl; [|done].
  exists c. split; [done|].
  destruct (hasSentInitial c) eqn:Hh, (sendInitial c) eqn:Hs; simpl in *;
    simplify_eq; (split; [done|]); unfold waits; rewrite ?Hh, ?Hs; naive_solver.
Qed.

Lemma next_is_Some i s c :
  closures s !! i = Some c -> exists p s', next i s = Some (p, s').
Proof. unfold next. intros ->. simpl. case_match; eauto. Qed.

Lemma next_waits i s c :
  closures s !! i = Some c -> waits c ->
  next i s =
  Some (Awaiting (length (deferreds s)),
        mkState (pub s)
          (<[i := mkClosure (evt c) (sendInitial c) (hasSentInitial c)
                            (Some (length (deferreds s)))]> (closures s))
          (deferreds s ++ [None])).
Proof.
  unfold next. intros -> Hw. simpl.
  destruct Hw as [->| ->]; simpl; by rewrite ?andb_false_r.
Qed.

Lemma return_Some i s p s' :
  return_ i s = Some (p, s') ->
  exists c, closures s !! i = Some c /\
    p = Resolved (mkResult true JUndefined) /\
    pub s' = off (evt c) (Subscribed i) (pub s) /\
    closures s' =
      <[i := mkClosure (evt c) (sendInitial c) (hasSentInitial c) None]> (closures s) /\
    deferreds s' = deferreds s.
Proof.
  unfold return_. destruct (closures s !! i) as [c|]; simpl; [|done].
  intros [= <- <-]. by exists c.
Qed.

Lemma return_is_Some i s c :
  closures s !! i = Some c -> exists p s', return_ i s = Some (p, s').
Proof. unfold return_. intros ->. simpl. eauto. Qed.

Lemma sub_id_elem i (ls : list Listener) :
  i ∈ omap sub_id ls <-> Subscribed i ∈ ls.
Proof.
  rewrite list_elem_of_omap. split.
  - intros ([j|k b] & Hin & Hs); simpl in Hs; by simplify_eq.
  - intros Hin. by exists (Subscribed i).
Qed.

Lemma remove_last_once l (ls : list Listener) :
  NoDup (omap sub_id ls) -> NoDup (omap sub_id (remove_last l ls)).
Proof.
  intros Hnd. destruct (decide (l ∈ ls)) as [Hin|Hn].
  - destruct (remove_last_present _ _ Hin) as (pre & post & -> & _ & ->).
    revert Hnd. rewrite !omap_app. simpl.
    rewrite !NoDup_app. intros (Hpre & Hdis & Hpost).
    destruct (sub_id l) as [k|].
    + apply NoDup_cons in Hpost as [_ Hpost]. split_and!; [done| |done].
      intros x Hx Hx'. apply (Hdis x Hx). by right.
    + done.
  - by rewrite remove_last_absent.
Qed.

(** With every [subscribed] there at most once, [off] leaves none. *)
Lemma remove_last_gone i (ls : list Listener) :
  NoDup (omap sub_id ls) -> Subscribed i ∉ remove_last (Subscribed i) ls.
Proof.
  intros Hnd. destruct (decide (Subscribed i ∈ ls)) as [Hin|Hn].
  - destruct (remove_last_present _ _ Hin) as (pre & post & -> & Hpost & ->).
    revert Hnd. rewrite omap_app. simpl. rewrite NoDup_app.
    intros (_ & Hdis & _). rewrite elem_of_app. intros [Hpre|?]; [|done].
    apply (Hdis i); [by apply sub_id_elem | left].
  - by rewrite remove_last_absent.
Qed.

Lemma filter_absent (l : Listener) (ks : list Listener) :
  l ∉ ks -> filter (fun x => x ≠ l) ks = ks.
Proof.
  induction ks as [|x ks IH]; [done|]. rewrite not_elem_of_cons.
  intros [Hx Hks]. rewrite filter_cons_True by done. by rewrite IH.
Qed.

Lemma remove_last_filter i (ls : list Listener) :
  NoDup (omap sub_id ls) ->
  remove_last (Subscribed i) ls = filter (fun l => l ≠ Subscribed i) ls.
Proof.
  intros Hnd. destruct (decide (Subscribed i ∈ ls)) as [Hin|Hn].
  - destruct (remove_last_present _ _ Hin) as (pre & post & -> & Hpost & ->).
    assert (Subscribed i ∉ pre) as Hpre.
    { revert Hnd. rewrite omap_app. simpl. rewrite NoDup_app.
      intros (_ & Hdis & _) Hpre. apply (Hdis i); [by apply sub_id_elem | left]. }
    rewrite !filter_app, filter_cons_False by (by intros ?).
    by rewrite !filter_absent.
  - by rewrite remove_last_absent, filter_absent.
Qed.

End MethodFacts.

(** ** The invariant *)

Section Invariant.
Import EventEmitter.
Implicit Types (s t : State) (d i j : nat) (c : Closure) (e : EvtName).

Lemma wf_init : wf init.
Proof.
  split; unfold init, listeners; simpl.
  - intros e i. rewrite lookup_empty. simpl. by intros ?%elem_of_nil.
  - intros e. rewrite lookup_empty. simpl. constructor.
  - intros i c d. by rewrite lookup_nil.
  - intros i j ci cj d. by rewrite lookup_nil.
Qed.

Lemma wf_in_range s e i :
  wf s -> Subscribed i ∈ listeners (pub s) e -> i < length (closures s).
Proof.
  intros Hwf Hin. destruct (wf_registered s Hwf e i Hin) as (c & Hc & _).
  by eapply lookup_lt_Some.
Qed.

Lemma wf_subscribeTo e b s : wf s -> wf (subscribeTo e b s).2.
Proof.
  intros Hwf. split; simpl.
  - intros e' i. rewrite listeners_on. case_decide as He; subst.
    + rewrite elem_of_app, list_elem_of_singleton. intros [Hin|[= ->]].
      * destruct (wf_registered s Hwf e i Hin) as (c & Hc & Hev).
        exists c. split; [by apply lookup_app_l_Some | done].
      * eexists. split; [apply list_lookup_middle; done | done].
    + intros Hin. destruct (wf_registered s Hwf e' i Hin) as (c & Hc & Hev).
      exists c. split; [by apply lookup_app_l_Some | done].
  - intros e'. rewrite listeners_on. case_decide as He; subst.
    + rewrite omap_app. simpl. apply NoDup_app. split_and!.
      * apply (wf_once s Hwf).
      * intros x Hx ->%list_elem_of_singleton. apply sub_id_elem in Hx.
        apply wf_in_range in Hx; [lia | done].
      * apply NoDup_singleton.
    + apply (wf_once s Hwf).
  - intros i c d Hc Hd. apply lookup_app_Some in Hc as [Hc|[_ Hc]].
    + by eapply (wf_dfd_bound s Hwf).
    + apply list_lookup_singleton_Some in Hc as [_ <-]. done.
  - intros i j ci cj d Hi Hj Hdi Hdj.
    apply lookup_app_Some in Hi as [Hi|[_ Hi]];
      [|apply list_lookup_singleton_Some in Hi as [_ <-]; done].
    apply lookup_app_Some in Hj as [Hj|[_ Hj]];
      [|apply list_lookup_singleton_Some in Hj as [_ <-]; done].
    by eapply (wf_dfd_inj s Hwf).
Qed.

Lemma wf_next i s p s' : wf s -> next i s = Some (p, s') -> wf s'.
Proof.
  intros Hwf Hn. apply next_Some in Hn as (c & Hc & Hpub & Hcase).
  assert (i < length (closures s)) as Hlt by by eapply lookup_lt_Some.
  split.
  - intros e j. rewrite Hpub. intros Hin.
    destruct (wf_registered s Hwf e j Hin) as (cj & Hcj & Hev).
    destruct (decide (j = i)) as [->|Hne].
    + simplify_eq. destruct Hcase as [(_&_&_&->&_)|(_&_&->&_)];
        (eexists; split; [by apply list_lookup_insert_eq | done]).
    + exists cj. destruct Hcase as [(_&_&_&->&_)|(_&_&->&_)];
        by rewrite list_lookup_insert_ne.
  - intros e. rewrite Hpub. apply (wf_once s Hwf).
  - intros j cj d. destruct Hcase as [(_&_&_&->&->)|(_&_&->&->)];
      rewrite list_lookup_insert_Some, ?length_app; simpl.
    + intros [(<- & <- & _)|(_ & Hj)] Hd; simpl in *;
        by eapply (wf_dfd_bound s Hwf).
    + intros [(<- & <- & _)|(_ & Hj)] Hd; simpl in *; simplify_eq; [lia|].
      pose proof (wf_dfd_bound s Hwf _ _ _ Hj Hd). lia.
  - intros j k cj ck d. destruct Hcase as [(_&_&_&->&_)|(_&_&->&_)];
      rewrite !list_lookup_insert_Some.
    + intros [(<- & <- & _)|(? & Hj)] [(<- & <- & _)|(? & Hk)] Hdj Hdk;
        simpl in *; try done; by eapply (wf_dfd_inj s Hwf).
    + intros [(<- & <- & _)|(? & Hj)] [(<- & <- & _)|(? & Hk)] Hdj Hdk;
        simpl in *; simplify_eq; try done.
      * pose proof (wf_dfd_bound s Hwf _ _ _ Hk Hdk). lia.
      * pose proof (wf_dfd_bound s Hwf _ _ _ Hj Hdj). lia.
      * by eapply (wf_dfd_inj s Hwf).
Qed.

Lemma wf_return i s p s' : wf s -> return_ i s = Some (p, s') -> wf s'.
Proof.
  intros Hwf Hr. apply return_Some in Hr as (c & Hc & _ & Hpub & Hcl & Hdf).
  assert (i < length (closures s)) as Hlt by by eapply lookup_lt_Some.
  split.
  - intros e j. rewrite Hpub, Hcl, listeners_off. intros Hin.
    assert (Subscribed j ∈ listeners (pub s) e) as Hin'.
    { case_decide; subst; [by eapply remove_last_incl | done]. }
    destruct (wf_registered s Hwf e j Hin') as (cj & Hcj & Hev).
    destruct (decide (j = i)) as [->|Hne].
    + simplify_eq. eexists. split; [by apply list_lookup_insert_eq | done].
    + exists cj. by rewrite list_lookup_insert_ne.
  - intros e. rewrite Hpub, listeners_off. case_decide; subst.
    + apply remove_last_once, (wf_once s Hwf).
    + apply (wf_once s Hwf).
  - intros j cj d. rewrite Hcl, Hdf, list_lookup_insert_Some.
    intros [(<- & <- & _)|(_ & Hj)] Hd; simpl in *; [done|].
    by eapply (wf_dfd_bound s Hwf).
  - intros j k cj ck d. rewrite Hcl, !list_lookup_insert_Some.
    intros [(<- & <- & _)|(? & Hj)] [(<- & <- & _)|(? & Hk)] Hdj Hdk;
      simpl in *; try done; by eapply (wf_dfd_inj s Hwf).
Qed.

Lemma wf_emit e args s : wf s -> wf (_emit e args s).1.
Proof.
  intros Hwf. unfold _emit. rewrite emit_invoke.
  split; rewrite ?invoke_pub, ?invoke_closures, ?invoke_length.
  - apply (wf_registered s Hwf).
  - apply (wf_once s Hwf).
  - apply (wf_dfd_bound s Hwf).
  - apply (wf_dfd_inj s Hwf).
Qed.

Lemma step_subscribeTo e b s : step (OSubscribeTo e b) s = (subscribeTo e b s).2.
Proof. done. Qed.

Lemma step_next i s : step (ONext i) s = from_option snd s (next i s).
Proof. unfold step, perform. by destruct (next i s) as [[p s']|]. Qed.

Lemma step_return i s : step (OReturn i) s = from_option snd s (return_ i s).
Proof. unfold step, perform. by destruct (return_ i s) as [[p s']|]. Qed.

Lemma step_emit e args s : step (OEmit e args) s = (_emit e args s).1.
Proof. unfold step, perform. by destruct (_emit e args s). Qed.

Lemma wf_step o s : wf s -> wf (step o s).
Proof.
  intros Hwf. destruct o as [e b|i|i|e args].
  - rewrite step_subscribeTo. by apply wf_subscribeTo.
  - rewrite step_next. destruct (next i s) as [[p s']|] eqn:Hn; [by eapply wf_next | done].
  - rewrite step_return.
    destruct (return_ i s) as [[p s']|] eqn:Hr; [by eapply wf_return | done].
  - rewrite step_emit. by apply wf_emit.
Qed.

Lemma run_cons o ops s : run (o :: ops) s = run ops (step o s).
Proof.
  unfold run, step. simpl. destruct (perform o s) as [out s'].
  simpl. by destruct (exec ops s').
Qed.

Lemma run_nil s : run [] s = s.
Proof. done. Qed.

Lemma run_app ops1 ops2 s : run (ops1 ++ ops2) s = run ops2 (run ops1 s).
Proof.
  revert s. induction ops1 as [|o ops1 IH]; intros s; [done|].
  simpl app. by rewrite !run_cons, IH.
Qed.

Lemma wf_run ops s : wf s -> wf (run ops s).
Proof.
  revert s. induction ops as [|o ops IH]; intros s Hwf; [done|].
  rewrite run_cons. by apply IH, wf_step.
Qed.

(** Every store the class can get into from a fresh instance. *)
Lemma wf_reachable ops : wf (run ops init).
Proof. apply wf_run, wf_init. Qed.

End Invariant.

(** ** What a call keeps *)

Section Frames.
Import EventEmitter.
Implicit Types (s t : State) (d i j : nat) (c : Closure) (e : EvtName).

(** A fulfilled promise stays as it is. *)
Lemma step_settled o s d v :
  deferreds s !! d = Some (Some v) -> deferreds (step o s) !! d = Some (Some v).
Proof.
  intros H. destruct o as [e b|i|i|e args].
  - by rewrite step_subscribeTo.
  - rewrite step_next. destruct (next i s) as [[p s']|] eqn:Hn; [|done]. simpl.
    apply next_Some in Hn as (c & _ & _ & [(_&_&_&_&->)|(_&_&_&->)]); [done|].
    by apply lookup_app_l_Some.
  - rewrite step_return. destruct (return_ i s) as [[p s']|] eqn:Hr; [|done]. simpl.
    apply return_Some in Hr as (c & _ & _ & _ & _ & ->). done.
  - rewrite step_emit. unfold _emit. rewrite emit_invoke. by apply invoke_settled.
Qed.

Lemma run_settled ops s d v :
  deferreds s !! d = Some (Some v) -> deferreds (run ops s) !! d = Some (Some v).
Proof.
  revert s. induction ops as [|o ops IH]; intros s H; [done|].
  rewrite run_cons. by apply IH, step_settled.
Qed.

(** The variables of an iterator: [evt] and [sendInitial] are fixed,
    [hasSentInitial] only goes up, and calls on other iterators change
    nothing. *)
Lemma step_closure o s i c :
  closures s !! i = Some c ->
  exists c', closures (step o s) !! i = Some c' /\
    evt c' = evt c /\ sendInitial c' = sendInitial c /\
    (hasSentInitial c = true -> hasSentInitial c' = true) /\
    (foreign_to i o -> c' = c).
Proof.
  intros Hc. assert (i < length (closures s)) as Hlt by by eapply lookup_lt_Some.
  destruct o as [e b|j|j|e args].
  - rewrite step_subscribeTo. simpl. exists c.
    split; [by apply lookup_app_l_Some | done].
  - rewrite step_next. destruct (next j s) as [[p s']|] eqn:Hn; [|by exists c].
    simpl. apply next_Some in Hn as (cj & Hcj & _ & Hcase).
    destruct (decide (j = i)) as [->|Hne].
    + simplify_eq. destruct Hcase as [(_&_&_&->&_)|(_&_&->&_)];
        (eexists; split; [by apply list_lookup_insert_eq | by simpl]).
    + exists c. destruct Hcase as [(_&_&_&->&_)|(_&_&->&_)];
        by rewrite list_lookup_insert_ne.
  - rewrite step_return. destruct (return_ j s) as [[p s']|] eqn:Hr; [|by exists c].
    simpl. apply return_Some in Hr as (cj & Hcj & _ & _ & -> & _).
    destruct (decide (j = i)) as [->|Hne].
    + simplify_eq. eexists; split; [by apply list_lookup_insert_eq | by simpl].
    + exists c. by rewrite list_lookup_insert_ne.
  - rewrite step_emit. unfold _emit. rewrite emit_invoke, invoke_closures.
    by exists c.
Qed.

Lemma run_closure ops s i c :
  closures s !! i = Some c ->
  exists c', closures (run ops s) !! i = Some c' /\
    evt c' = evt c /\ sendInitial c' = sendInitial c /\
    (hasSentInitial c = true -> hasSentInitial c' = true) /\
    (Forall (foreign_to i) ops -> c' = c).
Proof.
  revert s c. induction ops as [|o ops IH]; intros s c Hc; [by exists c|].
  rewrite run_cons.
  destruct (step_closure o s i c Hc) as (c1 & Hc1 & He1 & Hs1 & Hh1 & Hf1).
  destruct (IH _ _ Hc1) as (c2 & Hc2 & He2 & Hs2 & Hh2 & Hf2).
  exists c2. split_and!; [done|congruence|congruence|auto|].
  intros Hall. inversion_clear Hall as [|?? Ho Hops]. rewrite Hf2, Hf1; done.
Qed.

(** Only [return()] of iterator [i] takes [Subscribed i] off. *)
Lemma step_registered o s i e :
  not_cancel i o ->
  Subscribed i ∈ listeners (pub s) e -> Subscribed i ∈ listeners (pub (step o s)) e.
Proof.
  intros Ho Hin. destruct o as [e' b|j|j|e' args].
  - rewrite step_subscribeTo. simpl. rewrite listeners_on.
    case_decide; subst; [apply elem_of_app; by left | done].
  - rewrite step_next. destruct (next j s) as [[p s']|] eqn:Hn; [|done]. simpl.
    apply next_Some in Hn as (c & _ & -> & _). done.
  - rewrite step_return. destruct (return_ j s) as [[p s']|] eqn:Hr; [|done]. simpl.
    apply return_Some in Hr as (c & _ & _ & -> & _). rewrite listeners_off.
    case_decide; subst; [|done]. apply remove_last_other; [|done].
    simpl in Ho. congruence.
  - rewrite step_emit. unfold _emit. by rewrite emit_invoke, invoke_pub.
Qed.

Lemma run_registered ops s i e :
  Forall (not_cancel i) ops ->
  Subscribed i ∈ listeners (pub s) e -> Subscribed i ∈ listeners (pub (run ops s)) e.
Proof.
  revert s. induction ops as [|o ops IH]; intros s Hall Hin; [done|].
  inversion_clear Hall as [|?? Ho Hops]. rewrite run_cons.
  by apply IH, step_registered.
Qed.

(** Once off the emitter, [Subscribed i] does not come back. *)
Lemma step_unregistered o s i :
  i < length (closures s) -> unregistered i s -> unregistered i (step o s).
Proof.
  intros Hlt Hun e. specialize (Hun e) as Hune. destruct o as [e' b|j|j|e' args].
  - rewrite step_subscribeTo. simpl. rewrite listeners_on.
    case_decide; subst; [|done]. rewrite elem_of_app, list_elem_of_singleton.
    intros [?|[= ->]]; [done | lia].
  - rewrite step_next. destruct (next j s) as [[p s']|] eqn:Hn; [|done]. simpl.
    apply next_Some in Hn as (c & _ & -> & _). done.
  - rewrite step_return. destruct (return_ j s) as [[p s']|] eqn:Hr; [|done]. simpl.
    apply return_Some in Hr as (c & _ & _ & -> & _). rewrite listeners_off.
    case_decide; subst; [|done]. intros Hin%remove_last_incl. by apply (Hun (evt c)).
  - rewrite step_emit. unfold _emit. by rewrite emit_invoke, invoke_pub.
Qed.

Lemma step_closures_length o s : length (closures s) <= length (closures (step o s)).
Proof.
  destruct o as [e b|j|j|e args].
  - rewrite step_subscribeTo. simpl. rewrite length_app. lia.
  - rewrite step_next. destruct (next j s) as [[p s']|] eqn:Hn; [|done]. simpl.
    apply next_Some in Hn as (c & _ & _ & [(_&_&_&->&_)|(_&_&->&_)]);
      by rewrite length_insert.
  - rewrite step_return. destruct (return_ j s) as [[p s']|] eqn:Hr; [|done]. simpl.
    apply return_Some in Hr as (c & _ & _ & _ & -> & _). by rewrite length_insert.
  - rewrite step_emit. unfold _emit. by rewrite emit_invoke, invoke_closures.
Qed.

Lemma run_unregistered ops s i :
  i < length (closures s) -> unregistered i s -> unregistered i (run ops s).
Proof.
  revert s. induction ops as [|o ops IH]; intros s Hlt Hun; [done|].
  rewrite run_cons. apply IH; [|by apply step_unregistered].
  pose proof (step_closures_length o s). lia.
Qed.

Lemma step_calm o s e : calm e s -> calm e (step o s).
Proof.
  unfold calm. intros H. destruct o as [e' b|j|j|e' args].
  - rewrite step_subscribeTo. simpl. rewrite listeners_on.
    case_decide; subst; [|done]. apply Forall_app. split; [done|].
    by apply Forall_singleton.
  - rewrite step_next. destruct (next j s) as [[p s']|] eqn:Hn; [|done]. simpl.
    apply next_Some in Hn as (c & _ & -> & _). done.
  - rewrite step_return. destruct (return_ j s) as [[p s']|] eqn:Hr; [|done]. simpl.
    apply return_Some in Hr as (c & _ & _ & -> & _). rewrite listeners_off.
    case_decide; subst; [|done]. apply Forall_forall.
    intros x Hx%remove_last_incl. revert x Hx. by apply Forall_forall.
  - rewrite step_emit. unfold _emit. by rewrite emit_invoke, invoke_pub.
Qed.

Lemma run_calm ops s e : calm e s -> calm e (run ops s).
Proof.
  revert s. induction ops as [|o ops IH]; intros s H; [done|].
  rewrite run_cons. by apply IH, step_calm.
Qed.

(** With no thrower under [e], a signal on [e] returns. *)
Lemma emit_calm e args s : calm e s -> (_emit e args s).2 = Normal.
Proof. intros H. unfold _emit. rewrite emit_invoke. by apply invoke_calm. Qed.

(** A waiter that no registered listener can reach is never fulfilled. *)
Lemma step_orphan o s d : orphan d s -> orphan d (step o s).
Proof.
  intros [Hp Hun]. assert (d < length (deferreds s)) as Hlt by by eapply lookup_lt_Some.
  destruct o as [e b|i|i|e args].
  - rewrite step_subscribeTo. split; [done|]. simpl. intros j c e' Hc Hd.
    apply lookup_app_Some in Hc as [Hc|[_ Hc]];
      [|apply list_lookup_singleton_Some in Hc as [_ <-]; done].
    rewrite listeners_on. case_decide; subst; [|by eapply Hun].
    rewrite elem_of_app, list_elem_of_singleton. intros [Hin|[= ->]].
    + by eapply Hun.
    + apply lookup_lt_Some in Hc. lia.
  - rewrite step_next. destruct (next i s) as [[p s']|] eqn:Hn; [|done]. simpl.
    apply next_Some in Hn as (c & Hc & Hpub & Hcase). split.
    + destruct Hcase as [(_&_&_&_&->)|(_&_&_&->)]; [done|].
      by apply lookup_app_l_Some.
    + intros j cj e. rewrite Hpub.
      destruct Hcase as [(_&_&_&->&_)|(_&_&->&_)]; rewrite list_lookup_insert_Some.
      * intros [(<- & <- & _)|(_ & Hj)] Hd; simpl in *; by eapply Hun.
      * intros [(<- & <- & _)|(_ & Hj)] Hd; simpl in *; simplify_eq; [lia|].
        by eapply Hun.
  - rewrite step_return. destruct (return_ i s) as [[p s']|] eqn:Hr; [|done]. simpl.
    apply return_Some in Hr as (c & Hc & _ & Hpub & Hcl & Hdf). split.
    + by rewrite Hdf.
    + intros j cj e. rewrite Hpub, Hcl, list_lookup_insert_Some, listeners_off.
      intros [(<- & <- & _)|(_ & Hj)] Hd; simpl in *; [done|].
      case_decide; subst; [|by eapply Hun].
      intros Hin%remove_last_incl. by eapply Hun.
  - rewrite step_emit. unfold _emit. rewrite emit_invoke. split.
    + rewrite invoke_frame; [done|]. intros j c Hin Hc Hd. by eapply Hun.
    + rewrite invoke_pub, invoke_closures. apply Hun.
Qed.

Lemma run_orphan ops s d : orphan d s -> orphan d (run ops s).
Proof.
  revert s. induction ops as [|o ops IH]; intros s H; [done|].
  rewrite run_cons. by apply IH, step_orphan.
Qed.

End Frames.

(** ** A pending pull and the signal that meets it *)

Section Delivery.
Import EventEmitter.
Implicit Types (s t : State) (d i j : nat) (c : Closure) (e : EvtName).

Lemma step_deferreds_length o s :
  length (deferreds s) <= length (deferreds (step o s)).
Proof.
  destruct o as [e b|j|j|e args].
  - by rewrite step_subscribeTo.
  - rewrite step_next. destruct (next j s) as [[p s']|] eqn:Hn; [|done]. simpl.
    apply next_Some in Hn as (c & _ & _ & [(_&_&_&_&->)|(_&_&_&->)]); [done|].
    rewrite length_app. lia.
  - rewrite step_return. destruct (return_ j s) as [[p s']|] eqn:Hr; [|done]. simpl.
    apply return_Some in Hr as (c & _ & _ & _ & _ & ->). done.
  - rewrite step_emit. unfold _emit. by rewrite emit_invoke, invoke_length.
Qed.

Lemma run_deferreds_length ops s :
  length (deferreds s) <= length (deferreds (run ops s)).
Proof.
  revert s. induction ops as [|o ops IH]; intros s; [done|].
  rewrite run_cons. pose proof (step_deferreds_length o s).
  pose proof (IH (step o s)). lia.
Qed.

Lemma foreign_not_cancel i ops :
  Forall (foreign_to i) ops -> Forall (not_cancel i) ops.
Proof. intros H. eapply Forall_impl; [done|]. by intros []. Qed.

Lemma pending_lookup s d :
  d < length (deferreds s) -> promise_state s (Awaiting d) = Pending ->
  deferreds s !! d = Some None.
Proof.
  intros Hlt. simpl. destruct (lookup_lt_is_Some_2 _ _ Hlt) as [[v|] ->]; done.
Qed.

(** The waiter of a registered iterator meets a signal on its event. *)
Lemma signal_meets_waiter s i c d e args s' :
  closures s !! i = Some c -> evt c = e -> dfd c = Some d ->
  Subscribed i ∈ listeners (pub s) e ->
  promise_state s (Awaiting d) = Pending -> d < length (deferreds s) ->
  _emit e args s = (s', Normal) ->
  promise_state s' (Awaiting d) = Fulfilled (mkResult false (arg0 args)).
Proof.
  intros Hc He Hd Hin Hp Hlt Hemit. unfold _emit in Hemit.
  rewrite emit_invoke in Hemit. simpl.
  by rewrite (invoke_own _ _ _ _ _ _ _ Hin Hc Hd (pending_lookup _ _ Hlt Hp) Hemit).
Qed.

End Delivery.

(** C1.  Open a subscription on [e] with [sendInitial = false] and pull.
    The pull is pending.  Whatever else happens in between (other
    subscriptions, signals, pulls and cancels of other iterators), if the
    pull is still pending when [signal(e, p)] is made and returns, the
    pull is resolved with [{ done: false, value: p }].  And the signal
    does return whenever no function registered under [e] throws, as is
    the case when only subscriptions are registered. *)
Theorem pull_resolves_with_signalled_payload (s : State) (e : EvtName) (p : jsval) :
  exists pr s2,
    next (subscribeTo e false s).1 (subscribeTo e false s).2 = Some (pr, s2) /\
    promise_state s2 pr = Pending /\
    (forall ops s4,
       Forall (foreign_to (subscribeTo e false s).1) ops ->
       promise_state (run ops s2) pr = Pending ->
       _emit e [p] (run ops s2) = (s4, Normal) ->
       promise_state s4 pr = Fulfilled (mkResult false p)) /\
    (forall ops, calm e s -> (_emit e [p] (run ops s2)).2 = Normal).
Proof.
  simpl. set (i := length (closures s)).
  set (s1 := mkState _ _ _).
  assert (closures s1 !! i = Some (mkClosure e false false None)) as Hc1.
  { by apply list_lookup_middle. }
  rewrite (next_waits i s1 _ Hc1) by (by right). simpl.
  do 2 eexists. split; [done|]. set (s2 := mkState _ _ _). split.
  { unfold s2. simpl. by rewrite list_lookup_middle. }
  split; cycle 1.
  { intros ops Hcalm. apply emit_calm, run_calm. unfold calm, s2, s1. simpl.
    rewrite listeners_on, decide_True by done.
    apply Forall_app. split; [done | by apply Forall_singleton]. }
  intros ops s4 Hops Hpend Hemit.
  assert (closures s2 !! i = Some (mkClosure e false false (Some (length (deferreds s))))) as Hc2.
  { apply list_lookup_insert_eq. by eapply lookup_lt_Some. }
  destruct (run_closure ops s2 i _ Hc2) as (c & Hc & _ & _ & _ & Hsame).
  rewrite (Hsame Hops) in Hc.
  eapply (signal_meets_waiter (run ops s2) i _ _ e [p]); try done.
  - apply run_registered; [by apply foreign_not_cancel|].
    simpl. rewrite listeners_on. rewrite decide_True by done.
    apply elem_of_app. right. by left.
  - pose proof (run_deferreds_length ops s2) as Hlen.
    simpl in Hlen. rewrite length_app in Hlen. simpl in Hlen. lia.
Qed.

Lemma pull_resolves_with_signalled_payload_witness :
  promise_state
    (_emit EvAuthChange [JNum 7]
       (run [OSubscribeTo EvAuthChange true; OEmit EvDevChange [JNull]; ONext 1]
            (step (ONext 0) (step (OSubscribeTo EvAuthChange false) init)))).1
    (Awaiting 0)
  = Fulfilled (mkResult false (JNum 7)).
Proof.
  destruct (pull_resolves_with_signalled_payload init EvAuthChange (JNum 7))
    as (pr & s2 & Hnext & _ & Hmeets & _).
  vm_compute in Hnext. injection Hnext as <- <-.
  apply (Hmeets [OSubscribeTo EvAuthChange true; OEmit EvDevChange [JNull]; ONext 1]).
  - repeat constructor; simpl; lia.
  - reflexivity.
  - reflexivity.
Defined.

(** ** After the synthetic first value *)

Section AfterInitial.
Import EventEmitter.
Implicit Types (s t : State) (d i j : nat) (c : Closure) (e : EvtName).

Lemma without_initial_lookup i s j :
  closures (without_initial i s) !! j =
  if decide (i = j) then plain <$> closures s !! j else closures s !! j.
Proof.
  unfold without_initial. simpl. rewrite list_lookup_alter.
  by case_decide; subst.
Qed.

Lemma insert_plain i j (cl : list Closure) c :
  <[j := if decide (i = j) then plain c else c]> (alter plain i cl) =
  alter plain i (<[j := c]> cl).
Proof.
  rewrite !list_insert_alter. case_decide; subst.
  - by rewrite !list_alter_alter_eq.
  - by rewrite list_alter_alter_ne.
Qed.

Lemma resolve_without_initial i d v s :
  resolve d v (without_initial i s) = without_initial i (resolve d v s).
Proof. unfold resolve. simpl. by repeat case_match. Qed.

Lemma call_without_initial i l args s :
  call l args (without_initial i s) =
  (without_initial i (call l args s).1, (call l args s).2).
Proof.
  destruct l as [j|k []]; simpl; try done. f_equal.
  unfold subscribed. rewrite without_initial_lookup.
  case_decide; subst; destruct (closures s !! j) as [c|]; simpl; try done;
    destruct (dfd c); by rewrite ?resolve_without_initial.
Qed.

Lemma invoke_without_initial i ls args s :
  invoke call ls args (without_initial i s) =
  (without_initial i (invoke call ls args s).1, (invoke call ls args s).2).
Proof.
  revert s. induction ls as [|l ls IH]; intros s; [done|].
  rewrite !invoke_cons, call_without_initial. simpl.
  destruct (throws l); [done | apply IH].
Qed.

(** Once the first value is out, every call does the same with the
    flags as they are and with the flags of [subscribeTo (evt, false)]. *)
Lemma perform_without_initial i o s c :
  closures s !! i = Some c -> hasSentInitial c = true ->
  perform o (without_initial i s) = ((perform o s).1, without_initial i (step o s)).
Proof.
  intros Hc Hh. assert (i < length (closures s)) as Hlt by by eapply lookup_lt_Some.
  unfold step. destruct o as [e b|j|j|e args]; simpl.
  - unfold without_initial. simpl. rewrite alter_app_l by done.
    by rewrite length_alter.
  - unfold next. rewrite without_initial_lookup. simpl.
    destruct (closures s !! j) as [cj|] eqn:Hcj; simpl;
      [|by case_decide]. unfold without_initial. simpl.
    case_decide as Hij; subst; simpl.
    + simplify_eq. rewrite Hh. simpl. do 2 f_equal.
      by rewrite <- insert_plain, decide_True.
    + destruct (negb (hasSentInitial cj) && sendInitial cj); simpl; do 2 f_equal;
        by rewrite <- insert_plain, decide_False.
  - unfold return_. rewrite without_initial_lookup. simpl.
    destruct (closures s !! j) as [cj|] eqn:Hcj; simpl;
      [|by case_decide]. unfold without_initial. simpl.
    case_decide as Hij; subst; simpl; do 2 f_equal.
    + by rewrite <- insert_plain, decide_True.
    + by rewrite <- insert_plain, decide_False.
  - unfold _emit. rewrite !emit_invoke. simpl.
    rewrite invoke_without_initial. by destruct (invoke call _ args s).
Qed.

Lemma exec_without_initial i ops s c :
  closures s !! i = Some c -> hasSentInitial c = true ->
  exec ops (without_initial i s) = ((exec ops s).1, without_initial i (run ops s)).
Proof.
  revert s c. induction ops as [|o ops IH]; intros s c Hc Hh; [done|].
  destruct (step_closure o s i c Hc) as (c' & Hc' & _ & _ & Hh' & _).
  unfold run. simpl. rewrite (perform_without_initial i o s c Hc Hh).
  unfold step in *. destruct (perform o s) as [out s']. simpl in *.
  rewrite (IH s' c' Hc' (Hh' Hh)). unfold run. by destruct (exec ops s').
Qed.

End AfterInitial.

(** A pull of an iterator that creates waiters and is registered on its
    event: a fresh pending deferred is made, the emitter is left alone,
    and a signal on the event that returns while the pull is still
    pending resolves it with the payload. *)
Lemma waiting_pull_meets_signal (s : State) (i : nat) (c : Closure) (e : EvtName) :
  closures s !! i = Some c -> evt c = e -> waits c ->
  exists s3,
    next i s = Some (Awaiting (length (deferreds s)), s3) /\
    promise_state s3 (Awaiting (length (deferreds s))) = Pending /\
    pub s3 = pub s /\
    deferreds s3 = deferreds s ++ [None] /\
    (Subscribed i ∈ EventEmitter.listeners (pub s) e ->
     forall ops p s4,
       Forall (foreign_to i) ops ->
       promise_state (run ops s3) (Awaiting (length (deferreds s))) = Pending ->
       _emit e [p] (run ops s3) = (s4, Normal) ->
       promise_state s4 (Awaiting (length (deferreds s))) = Fulfilled (mkResult false p)).
Proof.
  intros Hc Hev Hw. rewrite (next_waits i s c Hc Hw). eexists. split; [done|].
  set (s3 := mkState _ _ _). split_and!; [|done|done|].
  { simpl. by rewrite list_lookup_middle. }
  intros Hreg ops p s4 Hops Hpend Hemit.
  assert (closures s3 !! i =
          Some (mkClosure (evt c) (sendInitial c) (hasSentInitial c)
                          (Some (length (deferreds s))))) as Hc3.
  { apply list_lookup_insert_eq. by eapply lookup_lt_Some. }
  destruct (run_closure ops s3 i _ Hc3) as (c' & Hc' & _ & _ & _ & Hsame).
  rewrite (Hsame Hops) in Hc'.
  eapply (signal_meets_waiter (run ops s3) i _ _ e [p]); try done.
  - apply run_registered; [by apply foreign_not_cancel | done].
  - pose proof (run_deferreds_length ops s3) as Hlen.
    simpl in Hlen. rewrite length_app in Hlen. simpl in Hlen. lia.
Qed.

(** C2.  Open a subscription with [sendInitial = true].  The first pull
    is settled at once with [{ done: false, value: {} }]; it touches
    neither the emitter nor any deferred, and sets [hasSentInitial].
    Every later pull, after any calls whatever, creates a waiter: it
    returns a promise on a fresh deferred, which is pending, and leaves
    the emitter alone; and as long as the iterator has not been
    cancelled, the signal on [e] that returns while that pull is pending
    resolves it with [{ done: false, value: p }], [p] being the payload
    of the signal.  The signal does return when no function registered
    under [e] throws.  This is what the iterator of
    [subscribeTo (e, false)] does: with the two flags replaced, the store
    after the first pull is the store of [subscribeTo (e, false)], and
    every further sequence of calls returns the same promises and
    completions and ends in the same store up to the two flags. *)
Theorem initial_pull_then_as_without_initial (s : State) (e : EvtName) :
  exists s2,
    next (subscribeTo e true s).1 (subscribeTo e true s).2 =
      Some (Resolved (mkResult false (JObject [])), s2) /\
    pub s2 = pub (subscribeTo e true s).2 /\
    deferreds s2 = deferreds (subscribeTo e true s).2 /\
    hasSentInitial <$> closures s2 !! (subscribeTo e true s).1 = Some true /\
    without_initial (subscribeTo e true s).1 s2 = (subscribeTo e false s).2 /\
    (forall ops,
       exec ops (without_initial (subscribeTo e true s).1 s2) =
       ((exec ops s2).1, without_initial (subscribeTo e true s).1 (run ops s2))) /\
    (forall ops,
       exists s3,
         next (subscribeTo e true s).1 (run ops s2) =
           Some (Awaiting (length (deferreds (run ops s2))), s3) /\
         promise_state s3 (Awaiting (length (deferreds (run ops s2)))) = Pending /\
         pub s3 = pub (run ops s2) /\
         deferreds s3 = deferreds (run ops s2) ++ [None] /\
         (Forall (not_cancel (subscribeTo e true s).1) ops ->
          forall ops' p s4,
            Forall (foreign_to (subscribeTo e true s).1) ops' ->
            promise_state (run ops' s3) (Awaiting (length (deferreds (run ops s2))))
              = Pending ->
            _emit e [p] (run ops' s3) = (s4, Normal) ->
            promise_state s4 (Awaiting (length (deferreds (run ops s2))))
              = Fulfilled (mkResult false p)) /\
         (calm e s -> forall ops' p, (_emit e [p] (run ops' s3)).2 = Normal)).
Proof.
  simpl. set (i := length (closures s)).
  assert ((closures s ++ [mkClosure e true false None]) !! i
          = Some (mkClosure e true false None)) as Hc1.
  { by apply list_lookup_middle. }
  unfold next at 1. simpl. rewrite Hc1. simpl. eexists. split; [done|]. simpl.
  assert (<[i := mkClosure e true true None]> (closures s ++ [mkClosure e true false None])
          = closures s ++ [mkClosure e true true None]) as Hins.
  { unfold i. rewrite insert_app_r_alt by lia. by rewrite Nat.sub_diag. }
  rewrite Hins.
  assert ((closures s ++ [mkClosure e true true None]) !! i
          = Some (mkClosure e true true None)) as Hc2.
  { by apply list_lookup_middle. }
  set (s2 := mkState _ _ _).
  split_and!; try done.
  - by rewrite Hc2.
  - unfold without_initial. simpl. f_equal.
    unfold i. rewrite alter_app_r_alt by lia. by rewrite Nat.sub_diag.
  - intros ops. by eapply exec_without_initial.
  - intros ops.
    destruct (run_closure ops s2 i _ Hc2) as (c & Hc & Hev & _ & Hh & _).
    destruct (waiting_pull_meets_signal (run ops s2) i c e Hc Hev)
      as (s3 & Hn & Hp & Hpub & Hdf & Hmeets); [left; by apply Hh|].
    exists s3. split_and!; try done.
    + intros Hops. apply Hmeets. apply run_registered; [done|].
      unfold s2. simpl. rewrite listeners_on, decide_True by done.
      apply elem_of_app. right. by left.
    + intros Hcalm ops' p. apply emit_calm, run_calm.
      unfold calm. rewrite Hpub. apply run_calm. unfold calm, s2. simpl.
      rewrite listeners_on, decide_True by done.
      apply Forall_app. split; [done | by apply Forall_singleton].
Qed.

Lemma initial_pull_then_as_without_initial_witness :
  promise_state
    (_emit EvAuthChange [JNum 9]
       (run [OSubscribeTo EvDevChange false; OEmit EvDevChange [JNull]]
          (step (ONext 0)
             (run [OEmit EvAuthChange [JNum 1]; OSubscribeTo EvAuthChange true]
                (step (ONext 0) (subscribeTo EvAuthChange true init).2))))).1
    (Awaiting 0)
  = Fulfilled (mkResult false (JNum 9)).
Proof.
  destruct (initial_pull_then_as_without_initial init EvAuthChange)
    as (s2 & Hfirst & _ & _ & _ & _ & _ & Hlater).
  vm_compute in Hfirst. injection Hfirst as <-.
  destruct (Hlater [OEmit EvAuthChange [JNum 1]; OSubscribeTo EvAuthChange true])
    as (s3 & Hnext & _ & _ & _ & Hmeets & _).
  vm_compute in Hnext. injection Hnext as <-.
  assert (Forall (not_cancel 0)
            [OEmit EvAuthChange [JNum 1]; OSubscribeTo EvAuthChange true]) as Hlive.
  { repeat constructor. }
  apply (Hmeets Hlive [OSubscribeTo EvDevChange false; OEmit EvDevChange [JNull]]
           (JNum 9)).
  - repeat constructor; simpl; lia.
  - reflexivity.
  - reflexivity.
Defined.

(** ** After [return()] *)

Section AfterCancel.
Import EventEmitter.
Implicit Types (s t : State) (d i j : nat) (c : Closure) (e : EvtName).

(** In a well-formed store [return()] leaves no copy of the listener. *)
Lemma return_unregisters i s p s' :
  wf s -> return_ i s = Some (p, s') -> unregistered i s'.
Proof.
  intros Hwf Hr e. apply return_Some in Hr as (c & Hc & _ & -> & _).
  rewrite listeners_off. case_decide as He; subst.
  - apply remove_last_gone, (wf_once s Hwf).
  - intros Hin. destruct (wf_registered s Hwf e i Hin) as (c' & Hc' & Hev).
    by simplify_eq.
Qed.

(** The waiter that was pending at [return()] is out of reach. *)
Lemma return_orphans i s p s' c d :
  wf s -> closures s !! i = Some c -> dfd c = Some d ->
  deferreds s !! d = Some None ->
  return_ i s = Some (p, s') -> orphan d s'.
Proof.
  intros Hwf Hc Hd Hp Hr.
  apply return_Some in Hr as (c' & Hc' & _ & _ & Hcl & Hdf). simplify_eq.
  split; [by rewrite Hdf|]. intros j cj e. rewrite Hcl, list_lookup_insert_Some.
  intros [(<- & <- & _)|(Hne & Hj)] Hdj; simpl in *; [done|].
  exfalso. apply Hne. by eapply (wf_dfd_inj s Hwf i j c cj d).
Qed.

(** A waiter made by an iterator that is off the emitter is out of reach. *)
Lemma next_orphans i s c :
  wf s -> unregistered i s -> closures s !! i = Some c -> waits c ->
  exists s', next i s = Some (Awaiting (length (deferreds s)), s') /\
             orphan (length (deferreds s)) s'.
Proof.
  intros Hwf Hun Hc Hw. rewrite (next_waits i s c Hc Hw). eexists. split; [done|].
  split; simpl.
  - by apply list_lookup_middle.
  - intros j cj e. rewrite list_lookup_insert_Some.
    intros [(<- & <- & _)|(_ & Hj)] Hd; simpl in *; [apply Hun|].
    pose proof (wf_dfd_bound s Hwf _ _ _ Hj Hd). lia.
Qed.

Lemma orphan_pending d s : orphan d s -> promise_state s (Awaiting d) = Pending.
Proof. intros [Hp _]. simpl. by rewrite Hp. Qed.

End AfterCancel.

(** C3, as stated, fails: with [sendInitial = true] and the first value
    not yet sent, a pull made after [return()] is settled at once with
    the synthetic value. *)
Lemma pull_after_cancel_yields_initial :
  exists p0 s1 pr s2,
    return_ 0 (subscribeTo EvAuthChange true init).2 = Some (p0, s1) /\
    next 0 s1 = Some (pr, s2) /\
    promise_state s2 pr = Fulfilled (mkResult false (JObject [])).
Proof. vm_compute. by do 4 eexists. Qed.

(** C3, amended.  [return()] on an iterator of a well-formed store
    settles with [{ done: true, value: undefined }].  From then on the
    listener of the iterator is on no event of the emitter, whatever is
    called; a pull that was pending at that moment is never resolved; and
    a pull made later is never resolved either, whatever signals follow,
    unless [sendInitial] is set and the first value has not been sent: that
    pull is settled with the synthetic value. *)
Theorem after_cancel_only_initial_value (s : State) (i : nat) (c : Closure) :
  wf s -> closures s !! i = Some c ->
  exists s1,
    return_ i s = Some (Resolved (mkResult true JUndefined), s1) /\
    (forall ops, unregistered i (run ops s1)) /\
    (forall d, dfd c = Some d -> deferreds s !! d = Some None ->
       forall ops, promise_state (run ops s1) (Awaiting d) = Pending) /\
    (forall ops, exists c' pr s2,
       closures (run ops s1) !! i = Some c' /\
       next i (run ops s1) = Some (pr, s2) /\
       if negb (hasSentInitial c') && sendInitial c'
       then pr = Resolved (mkResult false (JObject []))
       else forall ops', promise_state (run ops' s2) pr = Pending).
Proof.
  intros Hwf Hc. destruct (return_is_Some i s c Hc) as (p & s1 & Hr).
  pose proof (return_unregisters i s p s1 Hwf Hr) as Hun.
  pose proof (wf_return i s p s1 Hwf Hr) as Hwf1.
  pose proof Hr as Hr'. apply return_Some in Hr' as (c0 & Hc0 & -> & _ & Hcl & _).
  simplify_eq.
  assert (i < length (closures s1)) as Hlt.
  { rewrite Hcl, length_insert. by eapply lookup_lt_Some. }
  assert (forall ops, unregistered i (run ops s1)) as Hrun.
  { intros ops. by apply run_unregistered. }
  exists s1. split_and!; [done|done|..].
  - intros d Hd Hp ops. apply orphan_pending, run_orphan.
    by apply (return_orphans i s (Resolved (mkResult true JUndefined)) s1 c d).
  - intros ops. destruct (lookup_lt_is_Some_2 _ _ Hlt) as [c1 Hc1].
    destruct (run_closure ops s1 i c1 Hc1) as (c' & Hc' & _).
    destruct (negb (hasSentInitial c') && sendInitial c') eqn:Hflags.
    + destruct (next_is_Some i _ c' Hc') as (pr & s2 & Hn).
      exists c', pr, s2. rewrite Hflags. split_and!; [done..|].
      apply next_Some in Hn as (c2 & Hc2 & _ & [(_&_&->&_)|([Hh|Hs]&_)]);
        [done|simplify_eq..].
      * rewrite Hh in Hflags. done.
      * rewrite Hs, andb_false_r in Hflags. done.
    + assert (waits c') as Hw.
      { unfold waits. destruct (hasSentInitial c'), (sendInitial c'); auto. }
      destruct (next_orphans i (run ops s1) c') as (s2 & Hn & Horph);
        [by apply wf_run | done | done | done |].
      exists c', (Awaiting (length (deferreds (run ops s1)))), s2.
      rewrite Hflags. split_and!; [done..|].
      intros ops'. by apply orphan_pending, run_orphan.
Qed.

Lemma after_cancel_only_initial_value_witness :
  exists s1,
    return_ 0 (run [OSubscribeTo EvDevChange false; ONext 0] init) =
      Some (Resolved (mkResult true JUndefined), s1) /\
    (forall ops, unregistered 0 (run ops s1)) /\
    (forall d, Some 0 = Some d ->
       deferreds (run [OSubscribeTo EvDevChange false; ONext 0] init) !! d = Some None ->
       forall ops, promise_state (run ops s1) (Awaiting d) = Pending) /\
    (forall ops, exists c' pr s2,
       closures (run ops s1) !! 0 = Some c' /\
       next 0 (run ops s1) = Some (pr, s2) /\
       if negb (hasSentInitial c') && sendInitial c'
       then pr = Resolved (mkResult false (JObject []))
       else forall ops', promise_state (run ops' s2) pr = Pending).
Proof.
  apply (after_cancel_only_initial_value
           (run [OSubscribeTo EvDevChange false; ONext 0] init) 0
           (mkClosure EvDevChange false false (Some 0))).
  - apply wf_reachable.
  - reflexivity.
Defined.

(** ** What [return()] does to the emitter *)

(** C4.  [return()] on an iterator of a well-formed store leaves its
    listener on no event, and the listener arrays are the old ones with
    that one function filtered out: every other listener keeps its place,
    under every event.  When the listener was registered, the array of
    its event is shorter by exactly one. *)
Theorem cancel_removes_exactly_own_listener (s : State) (i : nat) (c : Closure) :
  wf s -> closures s !! i = Some c ->
  exists s',
    return_ i s = Some (Resolved (mkResult true JUndefined), s') /\
    (forall e, Subscribed i ∉ EventEmitter.listeners (pub s') e) /\
    (forall e, EventEmitter.listeners (pub s') e =
               filter (fun l => l ≠ Subscribed i) (EventEmitter.listeners (pub s) e)) /\
    (Subscribed i ∈ EventEmitter.listeners (pub s) (evt c) ->
     exists pre post,
       EventEmitter.listeners (pub s) (evt c) = pre ++ Subscribed i :: post /\
       EventEmitter.listeners (pub s') (evt c) = pre ++ post /\
       length (EventEmitter.listeners (pub s) (evt c)) =
         S (length (EventEmitter.listeners (pub s') (evt c)))).
Proof.
  intros Hwf Hc. destruct (return_is_Some i s c Hc) as (p & s' & Hr).
  pose proof (return_unregisters i s p s' Hwf Hr) as Hun.
  pose proof Hr as Hr'. apply return_Some in Hr' as (c0 & Hc0 & -> & Hpub & _).
  simplify_eq. exists s'. split_and!; [done|done|..].
  - intros e. rewrite Hpub, listeners_off. case_decide as He; subst.
    + apply remove_last_filter, (wf_once s Hwf).
    + rewrite filter_absent; [done|]. intros Hin.
      destruct (wf_registered s Hwf e i Hin) as (c' & Hc' & Hev). by simplify_eq.
  - intros Hin. rewrite Hpub, listeners_off, decide_True by done.
    destruct (remove_last_present _ _ Hin) as (pre & post & Heq & _ & Hrm).
    exists pre, post. rewrite Hrm, Heq. split_and!; [done..|].
    rewrite !length_app. simpl. lia.
Qed.

Lemma cancel_removes_exactly_own_listener_witness :
  exists s',
    return_ 1 (run [OSubscribeTo EvAuthChange true; OSubscribeTo EvAuthChange false;
                    OSubscribeTo EvAuthChange true] init) =
      Some (Resolved (mkResult true JUndefined), s') /\
    EventEmitter.listeners (pub s') EvAuthChange = [Subscribed 0; Subscribed 2].
Proof.
  destruct (cancel_removes_exactly_own_listener
              (run [OSubscribeTo EvAuthChange true; OSubscribeTo EvAuthChange false;
                    OSubscribeTo EvAuthChange true] init)
              1 (mkClosure EvAuthChange false false None))
    as (s' & Hr & _ & Hkeep & _).
  - apply wf_reachable.
  - reflexivity.
  - exists s'. split; [exact Hr|]. rewrite Hkeep. reflexivity.
Defined.

(** ** A listener that throws *)

(** C5, as stated, fails: a function that throws is registered first, a
    subscription with a pending pull second.  The signal ends with the
    error, and the pull is still pending: [subscribed] was not called. *)
Lemma thrower_escapes_and_starves_later_listeners :
  exists pr s2,
    next 0 (subscribeTo EvAuthChange false faulty).2 = Some (pr, s2) /\
    EventEmitter.listeners (pub s2) EvAuthChange =
      [Foreign 0 (Throws "boom"); Subscribed 0] /\
    _emit EvAuthChange [JNum 1] s2 = (s2, Throw "boom") /\
    promise_state s2 pr = Pending.
Proof. vm_compute. by do 2 eexists. Qed.

(** C5, amended.  When a function registered under [e] throws, the signal
    ends there: the error leaves [_emit], the store is the one reached by
    calling the listeners registered before the thrower, so their pending
    pulls are resolved with the payload, and the pending pulls of the
    subscriptions that are not among them stay pending.  The listener of
    the bridge itself never throws. *)
Theorem signal_stops_at_first_thrower
    (s : State) (e : EvtName) (args : list jsval)
    (pre : list Listener) (k : nat) (err : string) (post : list Listener) :
  EventEmitter.listeners (pub s) e = pre ++ Foreign k (Throws err) :: post ->
  Forall (fun l => throws l = None) pre ->
  _emit e args s = ((EventEmitter.invoke call pre args s).1, Throw err) /\
  (forall i c d,
     closures s !! i = Some c -> dfd c = Some d -> deferreds s !! d = Some None ->
     (Subscribed i ∈ pre ->
      promise_state (_emit e args s).1 (Awaiting d) =
        Fulfilled (mkResult false (arg0 args))) /\
     (wf s -> Subscribed i ∉ pre ->
      promise_state (_emit e args s).1 (Awaiting d) = Pending)) /\
  (forall i a t, (call (Subscribed i) a t).2 = Normal).
Proof.
  intros Hls Hpre.
  assert (_emit e args s = ((EventEmitter.invoke call pre args s).1, Throw err)) as Hemit.
  { unfold _emit. rewrite emit_invoke, Hls. by apply invoke_thrower. }
  split_and!; [done| |done].
  intros i c d Hc Hd Hp. rewrite Hemit. simpl. split.
  - intros Hin. pose proof (invoke_calm pre args s Hpre) as Hn.
    destruct (EventEmitter.invoke call pre args s) as [s' cmp] eqn:Hrun.
    simpl in *. subst cmp.
    by rewrite (invoke_own pre args s s' i c d Hin Hc Hd Hp Hrun).
  - intros Hwf Hout. rewrite invoke_frame, Hp; [done|].
    intros j cj Hin Hcj Hdj.
    assert (i = j) as -> by by eapply (wf_dfd_inj s Hwf i j c cj d).
    done.
Qed.

Lemma signal_stops_at_first_thrower_witness :
  _emit EvAuthChange [JNum 1] (step (ONext 0) (subscribeTo EvAuthChange false faulty).2)
  = ((EventEmitter.invoke call [] [JNum 1]
        (step (ONext 0) (subscribeTo EvAuthChange false faulty).2)).1,
     Throw "boom").
Proof.
  apply (signal_stops_at_first_thrower
           (step (ONext 0) (subscribeTo EvAuthChange false faulty).2)
           EvAuthChange [JNum 1] [] 0 "boom" [Subscribed 0]).
  - reflexivity.
  - constructor.
Defined.

(** ** Registration lasts from [subscribeTo] to [return()] *)

(** [next()] never touches the emitter. *)
Lemma next_keeps_pub (j : nat) (t : State) (pr : Promise) (t' : State) :
  next j t = Some (pr, t') -> pub t' = pub t.
Proof. intros Hn. by apply next_Some in Hn as (c & _ & -> & _). Qed.

(** C6.  [subscribeTo] itself appends the listener to the array of the
    event; [next()] leaves the emitter as it is; through any calls other
    than [return()] of this iterator the listener stays registered; and
    every signal on the event that returns in that time reaches the one
    waiter the iterator has in [dfd]: if it was pending it is resolved
    with the payload. *)
Theorem registered_at_open_until_cancel (s : State) (e : EvtName) (b : bool) :
  EventEmitter.listeners (pub (subscribeTo e b s).2) e =
    EventEmitter.listeners (pub s) e ++ [Subscribed (subscribeTo e b s).1] /\
  (forall j t pr t', next j t = Some (pr, t') -> pub t' = pub t) /\
  (forall ops,
     Forall (not_cancel (subscribeTo e b s).1) ops ->
     Subscribed (subscribeTo e b s).1
       ∈ EventEmitter.listeners (pub (run ops (subscribeTo e b s).2)) e) /\
  (wf s ->
   forall ops args t',
     Forall (not_cancel (subscribeTo e b s).1) ops ->
     _emit e args (run ops (subscribeTo e b s).2) = (t', Normal) ->
     exists c,
       closures (run ops (subscribeTo e b s).2) !! (subscribeTo e b s).1 = Some c /\
       forall d,
         dfd c = Some d ->
         promise_state (run ops (subscribeTo e b s).2) (Awaiting d) = Pending ->
         promise_state t' (Awaiting d) = Fulfilled (mkResult false (arg0 args))).
Proof.
  set (i := (subscribeTo e b s).1). set (s1 := (subscribeTo e b s).2).
  assert (EventEmitter.listeners (pub s1) e =
          EventEmitter.listeners (pub s) e ++ [Subscribed i]) as Hopen.
  { unfold s1, i. simpl. by rewrite listeners_on, decide_True. }
  assert (forall ops, Forall (not_cancel i) ops ->
            Subscribed i ∈ EventEmitter.listeners (pub (run ops s1)) e) as Hstay.
  { intros ops Hops. apply run_registered; [done|].
    rewrite Hopen. apply elem_of_app. right. by left. }
  split_and!; [done | apply next_keeps_pub | done |].
  intros Hwf ops args t' Hops Hemit.
  assert (closures s1 !! i = Some (mkClosure e b false None)) as Hc1.
  { unfold s1, i. simpl. by apply list_lookup_middle. }
  destruct (run_closure ops s1 i _ Hc1) as (c & Hc & Hev & _).
  exists c. split; [done|]. intros d Hd Hp.
  assert (wf (run ops s1)) as Hwf' by by apply wf_run, wf_subscribeTo.
  eapply (signal_meets_waiter (run ops s1) i c d e args); try done.
  - by apply Hstay.
  - by eapply (wf_dfd_bound _ Hwf').
Qed.

Lemma registered_at_open_until_cancel_witness :
  exists c,
    closures (run [ONext 0; OSubscribeTo EvDevChange true; ONext 0]
                  (subscribeTo EvDevChange true init).2) !! 0 = Some c /\
    forall d,
      dfd c = Some d ->
      promise_state (run [ONext 0; OSubscribeTo EvDevChange true; ONext 0]
                         (subscribeTo EvDevChange true init).2) (Awaiting d) = Pending ->
      promise_state
        (_emit EvDevChange [JStr "x"]
           (run [ONext 0; OSubscribeTo EvDevChange true; ONext 0]
                (subscribeTo EvDevChange true init).2)).1
        (Awaiting d)
      = Fulfilled (mkResult false (arg0 [JStr "x"])).
Proof.
  destruct (registered_at_open_until_cancel init EvDevChange true)
    as (_ & _ & _ & Hseen).
  apply (Hseen wf_init [ONext 0; OSubscribeTo EvDevChange true; ONext 0]).
  - repeat constructor.
  - reflexivity.
Defined.

(** ** The order of delivery *)

Section Ordering.
Import EventEmitter.
Implicit Types (s t : State) (d i j : nat) (c : Closure) (e : EvtName).

Lemma live_step i e s c o :
  live i e s c -> not_cancel i o ->
  exists c', live i e (step o s) c' /\ (foreign_to i o -> c' = c).
Proof.
  intros [Hwf Hc Hev Hw Hreg Hcalm] Ho.
  destruct (step_closure o s i c Hc) as (c' & Hc' & He' & Hs' & Hh' & Hf').
  exists c'. split; [|done]. split.
  - by apply wf_step.
  - done.
  - congruence.
  - destruct Hw as [Hh|Hs]; [left; auto | right; congruence].
  - by apply step_registered.
  - by apply step_calm.
Qed.

(** Calls that are neither on iterator [i] nor signals on its event
    leave its waiter alone. *)
Lemma step_waiter_frame i e s c d o :
  live i e s c -> dfd c = Some d -> deferreds s !! d = Some None ->
  foreign_to i o -> event_of i e o = None ->
  deferreds (step o s) !! d = Some None.
Proof.
  intros [Hwf Hc Hev Hw Hreg Hcalm] Hd Hp Hf Hnone.
  destruct o as [e' b|j|j|e' args].
  - by rewrite step_subscribeTo.
  - rewrite step_next. destruct (next j s) as [[p s']|] eqn:Hn; [|done]. simpl.
    apply next_Some in Hn as (cj & _ & _ & [(_&_&_&_&->)|(_&_&_&->)]); [done|].
    by apply lookup_app_l_Some.
  - rewrite step_return. destruct (return_ j s) as [[p s']|] eqn:Hr; [|done]. simpl.
    apply return_Some in Hr as (cj & _ & _ & _ & _ & ->). done.
  - rewrite step_emit. unfold _emit. rewrite emit_invoke, invoke_frame; [done|].
    intros j cj Hin Hcj Hdj.
    assert (j = i) as -> by by eapply (wf_dfd_inj s Hwf j i cj c d).
    destruct (wf_registered s Hwf e' i Hin) as (c0 & Hc0 & Hev0).
    simplify_eq. simpl in Hnone. by rewrite decide_True in Hnone.
Qed.

(** What becomes of the waiter [d] that iterator [i] holds: the next
    call that concerns the iterator decides. *)
Lemma waiter_fate i e ops s c d :
  live i e s c -> dfd c = Some d -> deferreds s !! d = Some None ->
  Forall (not_cancel i) ops ->
  promise_state (run ops s) (Awaiting d) = outcome (arrives (omap (event_of i e) ops)).
Proof.
  revert s c. induction ops as [|o ops IH]; intros s c Hlive Hd Hp Hops.
  { rewrite run_nil. simpl. by rewrite Hp. }
  inversion_clear Hops as [|?? Ho Hops']. rewrite run_cons.
  destruct (live_step i e s c o Hlive Ho) as (c' & Hlive' & Hsame).
  pose proof Hlive as [Hwf Hc Hev Hw Hreg Hcalm].
  destruct o as [e' b|j|j|e' args]; simpl omap.
  - apply (IH _ c'); [done| |by eapply step_waiter_frame|done].
    by rewrite Hsame.
  - simpl. case_decide as Hj; subst; simpl.
    + (* the iterator pulls again: the old waiter is dropped *)
      apply orphan_pending, run_orphan. rewrite step_next.
      rewrite (next_waits i s c Hc Hw). simpl. split; simpl.
      * by apply lookup_app_l_Some.
      * intros k ck e0. rewrite list_lookup_insert_Some.
        intros [(<- & <- & _)|(Hne & Hk)] Hdk; simpl in *.
        -- simplify_eq. apply lookup_lt_Some in Hp. lia.
        -- exfalso. apply Hne. by eapply (wf_dfd_inj s Hwf i k c ck d).
    + apply (IH _ c'); [done| |eapply step_waiter_frame; try done|done].
      * by rewrite Hsame.
      * simpl. by rewrite decide_False.
  - simpl in Ho. apply (IH _ c'); [done| |eapply step_waiter_frame; try done|done].
    by rewrite Hsame.
  - simpl. case_decide as He; subst; simpl.
    + (* a signal on the event: the waiter is fulfilled, for good *)
      assert (deferreds (step (OEmit (evt c) args) s) !! d = Some (Some (arg0 args)))
        as Hres.
      { rewrite step_emit. unfold _emit. rewrite emit_invoke.
        pose proof (invoke_calm _ args s Hcalm) as Hn.
        destruct (invoke call _ args s) as [s' cmp] eqn:Hrun. simpl in *. subst.
        by eapply invoke_own. }
      by rewrite (run_settled ops _ d _ Hres).
    + apply (IH _ c'); [done| |eapply step_waiter_frame; try done|done].
      * by rewrite Hsame.
      * simpl. by rewrite decide_False.
Qed.

Lemma exec_cons o ops s :
  exec (o :: ops) s = ((perform o s).1 :: (exec ops (step o s)).1, run ops (step o s)).
Proof.
  unfold run, step. simpl. destruct (perform o s) as [out s']. simpl.
  by destruct (exec ops s').
Qed.

Lemma perform_next j s : (perform (ONext j) s).1 = OutPromise (fst <$> next j s).
Proof. simpl. by destruct (next j s) as [[p s']|]. Qed.

End Ordering.

(** C7.  Take an iterator that creates waiters and is registered on [e],
    in a well-formed store where nothing registered on [e] throws, and
    any sequence of calls without [return()] of this iterator.  Seen from
    the iterator the calls are its pulls and the signals on [e], in the
    order made.  Each pull then ends up with the payload of the signal
    that follows it directly, and stays pending when none does; a signal
    that does not follow a pull directly is delivered to no pull. *)
Theorem pulls_receive_signals_in_order
    (s : State) (i : nat) (c : Closure) (e : EvtName) (ops : list Op) :
  wf s -> closures s !! i = Some c -> evt c = e -> waits c ->
  Subscribed i ∈ EventEmitter.listeners (pub s) e -> calm e s ->
  Forall (not_cancel i) ops ->
  map (promise_state (run ops s)) (pulls_of i ops (exec ops s).1) =
  map outcome (delivered (omap (event_of i e) ops)).
Proof.
  intros Hwf Hc Hev Hw Hreg Hcalm Hops.
  assert (live i e s c) as Hlive by done. clear Hwf Hc Hev Hw Hreg Hcalm.
  revert s c Hlive. induction ops as [|o ops IH]; intros s c Hlive; [done|].
  inversion_clear Hops as [|?? Ho Hops'].
  destruct (live_step i e s c o Hlive Ho) as (c' & Hlive' & Hsame).
  specialize (IH Hops' _ _ Hlive').
  rewrite exec_cons, run_cons. simpl fst.
  destruct o as [e' b|j|j|e' args]; simpl omap.
  - simpl. apply IH.
  - rewrite perform_next. destruct (decide (j = i)) as [->|Hne].
    + destruct Hlive as [Hwf Hc Hev Hw Hreg Hcalm].
      rewrite (next_waits i s c Hc Hw). simpl.
      rewrite !decide_True by done. simpl. f_equal; [|apply IH].
      pose proof Hlive' as Hl. rewrite step_next, (next_waits i s c Hc Hw) in Hl.
      simpl in Hl. rewrite step_next, (next_waits i s c Hc Hw). simpl.
      destruct Hl as [Hwf' Hc' Hev' Hw' Hreg' Hcalm'].
      apply (waiter_fate i e ops _ c'); [done| | |done].
      * simpl in Hc'. rewrite list_lookup_insert_eq in Hc'
          by (by eapply lookup_lt_Some). by simplify_eq.
      * simpl. by apply list_lookup_middle.
    + simpl.
      destruct (next j s) as [[p s']|]; simpl; rewrite ?decide_False by done; apply IH.
  - simpl. destruct (return_ j s) as [[p s']|]; simpl; apply IH.
  - simpl. destruct (_emit e' args s) as [s' cmp]. simpl.
    case_decide; simpl; apply IH.
Qed.

Lemma pulls_receive_signals_in_order_witness :
  map (promise_state
         (run [OEmit EvAuthChange [JNum 1]; ONext 0; OEmit EvAuthChange [JNum 2];
               OEmit EvAuthChange [JNum 3]; ONext 0; ONext 0; OEmit EvAuthChange [JNum 4]]
              (subscribeTo EvAuthChange false init).2))
      (pulls_of 0
         [OEmit EvAuthChange [JNum 1]; ONext 0; OEmit EvAuthChange [JNum 2];
          OEmit EvAuthChange [JNum 3]; ONext 0; ONext 0; OEmit EvAuthChange [JNum 4]]
         (exec [OEmit EvAuthChange [JNum 1]; ONext 0; OEmit EvAuthChange [JNum 2];
                OEmit EvAuthChange [JNum 3]; ONext 0; ONext 0; OEmit EvAuthChange [JNum 4]]
               (subscribeTo EvAuthChange false init).2).1)
  = [Fulfilled (mkResult false (JNum 2)); Pending; Fulfilled (mkResult false (JNum 4))].
Proof.
  apply (pulls_receive_signals_in_order
           (subscribeTo EvAuthChange false init).2 0
           (mkClosure EvAuthChange false false None) EvAuthChange
           [OEmit EvAuthChange [JNum 1]; ONext 0; OEmit EvAuthChange [JNum 2];
            OEmit EvAuthChange [JNum 3]; ONext 0; ONext 0; OEmit EvAuthChange [JNum 4]]).
  - apply wf_subscribeTo, wf_init.
  - reflexivity.
  - reflexivity.
  - right. reflexivity.
  - apply list_elem_of_In. vm_compute. left. reflexivity.
  - repeat constructor.
  - repeat constructor.
Defined.

(** ** [return()] twice *)

(** C8.  In a well-formed store [return()] settles with
    [{ done: true, value: undefined }], and calling it again, any number
    of times, settles with the same and leaves the whole store (listener
    arrays, variables of every iterator, deferreds) as the first call
    left it. *)
Theorem cancel_idempotent (s : State) (i : nat) (c : Closure) :
  wf s -> closures s !! i = Some c ->
  exists s1,
    return_ i s = Some (Resolved (mkResult true JUndefined), s1) /\
    return_ i s1 = Some (Resolved (mkResult true JUndefined), s1) /\
    forall n, run (replicate n (OReturn i)) s1 = s1.
Proof.
  intros Hwf Hc. destruct (return_is_Some i s c Hc) as (p & s1 & Hr).
  pose proof (return_unregisters i s p s1 Hwf Hr) as Hun.
  pose proof Hr as Hr'. apply return_Some in Hr' as (c0 & Hc0 & -> & _ & Hcl & _).
  simplify_eq.
  assert (return_ i s1 = Some (Resolved (mkResult true JUndefined), s1)) as Hagain.
  { assert (closures s1 !! i =
            Some (mkClosure (evt c) (sendInitial c) (hasSentInitial c) None)) as Hc1.
    { rewrite Hcl. apply list_lookup_insert_eq. by eapply lookup_lt_Some. }
    unfold return_. rewrite Hc1. simpl.
    rewrite off_absent by apply Hun. rewrite list_insert_id by done.
    by destruct s1. }
  exists s1. split_and!; [done..|].
  induction n as [|n IH]; [done|].
  simpl replicate. rewrite run_cons, step_return, Hagain. simpl. apply IH.
Qed.

Lemma cancel_idempotent_witness :
  exists s1,
    return_ 0 (run [OSubscribeTo EvAuthChange true; OSubscribeTo EvAuthChange true;
                    ONext 0; ONext 0] init) =
      Some (Resolved (mkResult true JUndefined), s1) /\
    return_ 0 s1 = Some (Resolved (mkResult true JUndefined), s1) /\
    forall n, run (replicate n (OReturn 0)) s1 = s1.
Proof.
  apply (cancel_idempotent
           (run [OSubscribeTo EvAuthChange true; OSubscribeTo EvAuthChange true;
                 ONext 0; ONext 0] init)
           0 (mkClosure EvAuthChange true true (Some 0))).
  - apply wf_reachable.
  - reflexivity.
Defined.

(** ** A signal nobody listens to *)

(** C9.  With no listener under [e], [_emit] returns without an error
    and the store is the one it was given. *)
Theorem signal_without_listeners (s : State) (e : EvtName) (args : list jsval) :
  EventEmitter.listeners (pub s) e = [] -> _emit e args s = (s, Normal).
Proof. intros H. unfold _emit. by rewrite emit_invoke, H. Qed.

Lemma signal_without_listeners_witness :
  _emit EvDevChange [JNum 5; JNull]
        (run [OSubscribeTo EvAuthChange false; ONext 0] init)
  = (run [OSubscribeTo EvAuthChange false; ONext 0] init, Normal).
Proof.
  apply (signal_without_listeners
           (run [OSubscribeTo EvAuthChange false; ONext 0] init)
           EvDevChange [JNum 5; JNull]).
  reflexivity.
Defined.

(** ** The publishers pass no payload *)

Section Publishers.
Import EventEmitter.
Implicit Types (s t : State) (d i j : nat) (c : Closure) (e : EvtName).

Lemma emit_lookup e args s d :
  deferreds (_emit e args s).1 !! d = deferreds s !! d \/
  (deferreds s !! d = Some None /\
   deferreds (_emit e args s).1 !! d = Some (Some (arg0 args))).
Proof. unfold _emit. rewrite emit_invoke. apply invoke_lookup. Qed.

(** A public call leaves a deferred as it is, or fulfils it, pending so
    far, with [undefined]. *)
Lemma api_step_lookup (m : Call) s d :
  d < length (deferreds s) ->
  deferreds (api_step m s) !! d = deferreds s !! d \/
  (deferreds s !! d = Some None /\
   deferreds (api_step m s) !! d = Some (Some JUndefined)).
Proof.
  intros Hlt. destruct m as [| | |e b|i|i]; simpl.
  - apply (emit_lookup EvAuthChange [] s d).
  - apply (emit_lookup EvDevChange [] s d).
  - apply (emit_lookup EvBrowserStatusChange [] s d).
  - by left.
  - left. destruct (next i s) as [[p s']|] eqn:Hn; [|done]. simpl.
    apply next_Some in Hn as (c & _ & _ & [(_&_&_&_&->)|(_&_&_&->)]); [done|].
    by apply lookup_app_l.
  - left. destruct (return_ i s) as [[p s']|] eqn:Hr; [|done]. simpl.
    by apply return_Some in Hr as (c & _ & _ & _ & _ & ->).
Qed.

Lemma api_step_length (m : Call) s :
  length (deferreds s) <= length (deferreds (api_step m s)).
Proof.
  destruct m as [| | |e b|i|i]; simpl;
    try (unfold authChange, devChange, browserStatusChange, _emit;
         by rewrite emit_invoke, invoke_length).
  - done.
  - destruct (next i s) as [[p s']|] eqn:Hn; [|done]. simpl.
    apply next_Some in Hn as (c & _ & _ & [(_&_&_&_&->)|(_&_&_&->)]); [done|].
    rewrite length_app. lia.
  - destruct (return_ i s) as [[p s']|] eqn:Hr; [|done]. simpl.
    by apply return_Some in Hr as (c & _ & _ & _ & _ & ->).
Qed.

Lemma api_run_undefined calls s d :
  deferreds s !! d = Some None \/ deferreds s !! d = Some (Some JUndefined) ->
  deferreds (api_run calls s) !! d = Some None \/
  deferreds (api_run calls s) !! d = Some (Some JUndefined).
Proof.
  revert s. induction calls as [|m calls IH]; intros s H; [done|].
  simpl. apply IH.
  assert (d < length (deferreds s)) as Hlt.
  { destruct H as [H|H]; by eapply lookup_lt_Some. }
  destruct (api_step_lookup m s d Hlt) as [->|[_ ->]]; auto.
Qed.

End Publishers.

(** C10.  [authChange], [devChange] and [browserStatusChange] call [_emit]
    with the event name and nothing else, so a listener receives
    [undefined].  Hence, for a pull made in any store and any public calls
    after it: the pull was settled at once with the synthetic first value,
    or it is still pending, or it has been resolved with
    [{ done: false, value: undefined }]. *)
Theorem publishers_carry_no_payload
    (s : State) (i : nat) (pr : Promise) (s' : State) (calls : list Call) :
  next i s = Some (pr, s') ->
  (authChange s = _emit EvAuthChange [] s /\
   devChange s = _emit EvDevChange [] s /\
   browserStatusChange s = _emit EvBrowserStatusChange [] s /\
   arg0 [] = JUndefined) /\
  (pr = Resolved (mkResult false (JObject [])) \/
   promise_state (api_run calls s') pr = Pending \/
   promise_state (api_run calls s') pr = Fulfilled (mkResult false JUndefined)).
Proof.
  intros Hn. split; [done|].
  apply next_Some in Hn as (c & _ & _ & [(_&_&->&_)|(_&->&_&Hdf)]); [by left|].
  right. simpl.
  destruct (api_run_undefined calls s' (length (deferreds s))) as [->| ->]; auto.
  left. rewrite Hdf. by apply list_lookup_middle.
Qed.

Lemma publishers_carry_no_payload_witness :
  promise_state
    (api_run [CSubscribeTo EvDevChange true; CAuthChange; CDevChange]
       (step (ONext 0) (subscribeTo EvAuthChange false init).2))
    (Awaiting 0)
  = Fulfilled (mkResult false JUndefined).
Proof.
  destruct (publishers_carry_no_payload
              (subscribeTo EvAuthChange false init).2 0 (Awaiting 0)
              (step (ONext 0) (subscribeTo EvAuthChange false init).2)
              [CSubscribeTo EvDevChange true; CAuthChange; CDevChange])
    as [_ [Hinit|[Hpend|Hdone]]].
  - reflexivity.
  - discriminate Hinit.
  - vm_compute in Hpend. discriminate Hpend.
  - exact Hdone.
Defined.

(** ** The scenario of the specification, run *)

Example scenario_auth_change :
  exists p1 s2 p2 s3 s4 p3 s5 s6,
    next 0 (subscribeTo EvAuthChange true init).2 = Some (p1, s2) /\
    promise_state s2 p1 = Fulfilled (mkResult false (JObject [])) /\
    next 0 s2 = Some (p2, s3) /\
    promise_state s3 p2 = Pending /\
    _emit EvAuthChange [JObject [("loggedIn"%string, JBool true)]] s3 = (s4, Normal) /\
    promise_state s4 p2 =
      Fulfilled (mkResult false (JObject [("loggedIn"%string, JBool true)])) /\
    return_ 0 s4 = Some (p3, s5) /\
    promise_state s5 p3 = Fulfilled (mkResult true JUndefined) /\
    EventEmitter.listeners (pub s5) EvAuthChange = [] /\
    _emit EvAuthChange [JNull] s5 = (s6, Normal) /\ s6 = s5.
Proof. vm_compute. by do 8 eexists. Qed.

(** * Further properties of the bridge *)

Section Bridge.
Import EventEmitter.
Implicit Types (s t : State) (d i j : nat) (c : Closure) (e : EvtName).

Lemma api_step_step (m : Call) s : api_step m s = step (op_of_call m) s.
Proof.
  destruct m as [| | |e b|i|i]; simpl;
    rewrite ?step_emit, ?step_subscribeTo, ?step_next, ?step_return; done.
Qed.

Lemma api_run_run calls s : api_run calls s = run (map op_of_call calls) s.
Proof.
  revert s. induction calls as [|m calls IH]; intros s; [done|].
  simpl. rewrite run_cons, <- api_step_step. apply IH.
Qed.

Lemma call_idle l args s :
  (forall i c d, l = Subscribed i -> closures s !! i = Some c -> dfd c = Some d ->
                 deferreds s !! d ≠ Some None) ->
  (call l args s).1 = s.
Proof.
  intros H. destruct l as [i|k []]; simpl; try done.
  unfold subscribed. destruct (closures s !! i) as [c|] eqn:Hc; [|done].
  destruct (dfd c) as [d|] eqn:Hd; [|done].
  specialize (H i c d eq_refl Hc Hd). unfold resolve.
  by destruct (deferreds s !! d) as [[v|]|].
Qed.

Lemma invoke_idle ls args s :
  (forall i c d, Subscribed i ∈ ls -> closures s !! i = Some c -> dfd c = Some d ->
                 deferreds s !! d ≠ Some None) ->
  (invoke call ls args s).1 = s.
Proof.
  induction ls as [|l ls IH]; intros H; [done|].
  assert ((call l args s).1 = s) as Hl.
  { apply call_idle. intros i c d -> Hc Hd. apply (H i c d); [left | done..]. }
  rewrite invoke_cons. destruct (throws l); simpl; [done|].
  rewrite Hl. apply IH. intros i c d Hin. apply (H i c d). by right.
Qed.

Lemma last_index_snoc l (ls : list Listener) :
  last_index l (ls ++ [l]) = Some (length ls).
Proof.
  induction ls as [|x ls IH]; simpl; [by rewrite decide_True | by rewrite IH].
Qed.

Lemma remove_last_snoc l (ls : list Listener) : remove_last l (ls ++ [l]) = ls.
Proof.
  unfold remove_last. rewrite last_index_snoc, remove_at_middle. apply app_nil_r.
Qed.

(** Calls other than [next()] of iterator [i] leave its two flags alone. *)
Lemma step_flags o s i c :
  closures s !! i = Some c -> o ≠ ONext i ->
  exists c', closures (step o s) !! i = Some c' /\
    hasSentInitial c' = hasSentInitial c /\ sendInitial c' = sendInitial c.
Proof.
  intros Hc Ho. assert (i < length (closures s)) as Hlt by by eapply lookup_lt_Some.
  destruct o as [e b|j|j|e args].
  - rewrite step_subscribeTo. simpl. exists c.
    split; [by apply lookup_app_l_Some | done].
  - assert (j ≠ i) as Hne by congruence.
    destruct (step_closure (ONext j) s i c Hc) as (c' & Hc' & _ & _ & _ & Hsame).
    exists c'. rewrite (Hsame Hne) in *. done.
  - rewrite step_return. destruct (return_ j s) as [[p s']|] eqn:Hr; [|by exists c].
    simpl. apply return_Some in Hr as (cj & Hcj & _ & _ & -> & _).
    destruct (decide (j = i)) as [->|Hne].
    + simplify_eq. eexists; split; [by apply list_lookup_insert_eq | by simpl].
    + exists c. by rewrite list_lookup_insert_ne.
  - rewrite step_emit. unfold _emit. rewrite emit_invoke, invoke_closures.
    by exists c.
Qed.

End Bridge.

(** X1.  In every store that the public methods can reach from a fresh
    instance, the invariant holds, nothing registered on the emitter
    throws, and so the three publishers return normally. *)
Theorem publishers_never_throw (calls : list Call) :
  wf (api_run calls init) /\
  (forall e, calm e (api_run calls init)) /\
  (authChange (api_run calls init)).2 = Normal /\
  (devChange (api_run calls init)).2 = Normal /\
  (browserStatusChange (api_run calls init)).2 = Normal.
Proof.
  assert (forall e, calm e (api_run calls init)) as Hcalm.
  { intros e. rewrite api_run_run. apply run_calm.
    unfold calm, EventEmitter.listeners, init. simpl. by rewrite lookup_empty. }
  split_and!; [|done|by apply emit_calm..].
  rewrite api_run_run. apply wf_reachable.
Qed.

(** X2.  One signal that returns reaches every subscription registered on
    the event: each of their pending waiters is fulfilled with the same
    first argument.  Nothing else changes: a deferred that no registered
    iterator of the event holds keeps its state, a fulfilled one keeps its
    value, and the emitter, the variables of the iterators and the number
    of deferreds are as before. *)
Theorem signal_reaches_every_subscription
    (s : State) (e : EvtName) (args : list jsval) (s' : State) :
  _emit e args s = (s', Normal) ->
  (forall i c d,
     Subscribed i ∈ EventEmitter.listeners (pub s) e ->
     closures s !! i = Some c -> dfd c = Some d -> deferreds s !! d = Some None ->
     deferreds s' !! d = Some (Some (arg0 args))) /\
  (forall d,
     (forall i c, Subscribed i ∈ EventEmitter.listeners (pub s) e ->
                  closures s !! i = Some c -> dfd c ≠ Some d) ->
     deferreds s' !! d = deferreds s !! d) /\
  (forall d v, deferreds s !! d = Some (Some v) -> deferreds s' !! d = Some (Some v)) /\
  pub s' = pub s /\ closures s' = closures s /\
  length (deferreds s') = length (deferreds s).
Proof.
  unfold _emit. rewrite emit_invoke. intros Hrun.
  pose proof (invoke_pub (EventEmitter.listeners (pub s) e) args s) as Hpub.
  pose proof (invoke_closures (EventEmitter.listeners (pub s) e) args s) as Hcl.
  pose proof (invoke_length (EventEmitter.listeners (pub s) e) args s) as Hlen.
  split_and!.
  - intros i c d Hin Hc Hd Hp. by eapply invoke_own.
  - intros d Hd.
    pose proof (invoke_frame (EventEmitter.listeners (pub s) e) args s d Hd) as H.
    by rewrite Hrun in H.
  - intros d v Hv.
    pose proof (invoke_settled (EventEmitter.listeners (pub s) e) args s d v Hv) as H.
    by rewrite Hrun in H.
  - by rewrite Hrun in Hpub.
  - by rewrite Hrun in Hcl.
  - by rewrite Hrun in Hlen.
Qed.

Lemma signal_reaches_every_subscription_witness :
  deferreds
    (_emit EvAuthChange [JStr "hi"]
       (run [OSubscribeTo EvAuthChange false; OSubscribeTo EvAuthChange false;
             ONext 0; ONext 1] init)).1 !! 1
  = Some (Some (arg0 [JStr "hi"])).
Proof.
  destruct (signal_reaches_every_subscription
              (run [OSubscribeTo EvAuthChange false; OSubscribeTo EvAuthChange false;
                    ONext 0; ONext 1] init)
              EvAuthChange [JStr "hi"]
              (_emit EvAuthChange [JStr "hi"]
                 (run [OSubscribeTo EvAuthChange false; OSubscribeTo EvAuthChange false;
                       ONext 0; ONext 1] init)).1)
    as (Hall & _).
  - reflexivity.
  - apply (Hall 1 (mkClosure EvAuthChange false false (Some 1)) 1).
    + apply list_elem_of_In. vm_compute. right. left. reflexivity.
    + reflexivity.
    + reflexivity.
    + reflexivity.
Defined.

(** X3.  A signal on one event does not reach the waiter of a subscription
    on another event, whether the signal returns or throws. *)
Theorem signal_on_other_event_not_seen
    (s : State) (i : nat) (c : Closure) (d : nat) (e' : EvtName) (args : list jsval) :
  wf s -> closures s !! i = Some c -> dfd c = Some d -> evt c ≠ e' ->
  deferreds (_emit e' args s).1 !! d = deferreds s !! d.
Proof.
  intros Hwf Hc Hd Hne. unfold _emit. rewrite emit_invoke. apply invoke_frame.
  intros j cj Hin Hcj Hdj.
  assert (j = i) as -> by by eapply (wf_dfd_inj s Hwf j i cj c d).
  destruct (wf_registered s Hwf e' i Hin) as (c0 & Hc0 & Hev). by simplify_eq.
Qed.

Lemma signal_on_other_event_not_seen_witness :
  deferreds (_emit EvDevChange [JNum 1]
               (run [OSubscribeTo EvAuthChange false; OSubscribeTo EvDevChange false;
                     ONext 0; ONext 1] init)).1 !! 0
  = Some None.
Proof.
  rewrite (signal_on_other_event_not_seen
             (run [OSubscribeTo EvAuthChange false; OSubscribeTo EvDevChange false;
                   ONext 0; ONext 1] init)
             0 (mkClosure EvAuthChange false false (Some 0)) 0 EvDevChange [JNum 1]).
  - reflexivity.
  - apply wf_reachable.
  - reflexivity.
  - reflexivity.
  - discriminate.
Defined.

(** X4.  A signal on an event whose registered subscriptions have no
    pending waiter (none was made, or it is already fulfilled) leaves the
    whole store as it is: the signal is dropped, not queued. *)
Theorem signal_without_waiter_is_dropped (s : State) (e : EvtName) (args : list jsval) :
  (forall i c d,
     Subscribed i ∈ EventEmitter.listeners (pub s) e ->
     closures s !! i = Some c -> dfd c = Some d -> deferreds s !! d ≠ Some None) ->
  (_emit e args s).1 = s.
Proof. intros H. unfold _emit. rewrite emit_invoke. by apply invoke_idle. Qed.

Lemma signal_without_waiter_is_dropped_witness :
  (_emit EvAuthChange [JNum 2]
     (run [OSubscribeTo EvAuthChange false; ONext 0; OEmit EvAuthChange [JNum 1]] init)).1
  = run [OSubscribeTo EvAuthChange false; ONext 0; OEmit EvAuthChange [JNum 1]] init.
Proof.
  apply (signal_without_waiter_is_dropped
           (run [OSubscribeTo EvAuthChange false; ONext 0; OEmit EvAuthChange [JNum 1]] init)
           EvAuthChange [JNum 2]).
  intros i c d Hin Hc Hd.
  apply list_elem_of_In in Hin. vm_compute in Hin. destruct Hin as [Hi|[]].
  injection Hi as <-. vm_compute in Hc. injection Hc as <-.
  vm_compute in Hd. injection Hd as <-. vm_compute. discriminate.
Defined.

(** X5.  [next()] called again before a signal has come replaces the
    waiter in [dfd]: the promise of the earlier call is left without any
    way to be resolved, and stays pending whatever is called later. *)
Theorem second_pull_strands_first (s : State) (i : nat) (c : Closure) :
  wf s -> closures s !! i = Some c -> waits c ->
  exists s1 s2,
    next i s = Some (Awaiting (length (deferreds s)), s1) /\
    next i s1 = Some (Awaiting (S (length (deferreds s))), s2) /\
    forall ops, promise_state (run ops s2) (Awaiting (length (deferreds s))) = Pending.
Proof.
  intros Hwf Hc Hw. assert (i < length (closures s)) as Hlt by by eapply lookup_lt_Some.
  rewrite (next_waits i s c Hc Hw). eexists. eexists. split; [done|].
  set (s1 := mkState _ _ _).
  assert (closures s1 !! i =
          Some (mkClosure (evt c) (sendInitial c) (hasSentInitial c)
                          (Some (length (deferreds s))))) as Hc1.
  { by apply list_lookup_insert_eq. }
  assert (waits (mkClosure (evt c) (sendInitial c) (hasSentInitial c)
                           (Some (length (deferreds s))))) as Hw1 by done.
  rewrite (next_waits i s1 _ Hc1 Hw1). simpl.
  rewrite length_app, Nat.add_1_r. split; [done|].
  intros ops. apply orphan_pending, run_orphan. split; simpl.
  - apply lookup_app_l_Some. by apply list_lookup_middle.
  - intros j cj e. rewrite list_insert_insert_eq, list_lookup_insert_Some.
    intros [(<- & <- & _)|(_ & Hj)] Hd; simpl in *; simplify_eq; [lia|].
    pose proof (wf_dfd_bound s Hwf _ _ _ Hj Hd). lia.
Qed.

Lemma second_pull_strands_first_witness :
  promise_state
    (run [OEmit EvAuthChange [JNum 1]; OEmit EvAuthChange [JNum 2]]
         (run [ONext 0; ONext 0] (subscribeTo EvAuthChange false init).2))
    (Awaiting 0)
  = Pending.
Proof.
  destruct (second_pull_strands_first
              (subscribeTo EvAuthChange false init).2 0
              (mkClosure EvAuthChange false false None))
    as (s1 & s2 & H1 & H2 & Hstuck).
  - apply wf_subscribeTo, wf_init.
  - reflexivity.
  - right. reflexivity.
  - vm_compute in H1. injection H1 as <-.
    vm_compute in H2. injection H2 as <-.
    apply (Hstuck [OEmit EvAuthChange [JNum 1]; OEmit EvAuthChange [JNum 2]]).
Defined.

(** X6.  A promise that is fulfilled stays fulfilled with the same
    result through every later call: a deferred is resolved once. *)
Theorem fulfilled_promise_is_final
    (s : State) (pr : Promise) (r : IteratorResult) (ops : list Op) :
  promise_state s pr = Fulfilled r -> promise_state (run ops s) pr = Fulfilled r.
Proof.
  destruct pr as [r'|d]; simpl; [done|].
  destruct (deferreds s !! d) as [[v|]|] eqn:Hd; try done.
  intros [= <-]. by rewrite (run_settled ops s d v Hd).
Qed.

Lemma fulfilled_promise_is_final_witness :
  promise_state
    (run [OEmit EvAuthChange [JNum 2]; ONext 0; OEmit EvAuthChange [JNum 3]; OReturn 0]
         (run [OSubscribeTo EvAuthChange false; ONext 0; OEmit EvAuthChange [JNum 1]] init))
    (Awaiting 0)
  = Fulfilled (mkResult false (JNum 1)).
Proof.
  apply (fulfilled_promise_is_final
           (run [OSubscribeTo EvAuthChange false; ONext 0; OEmit EvAuthChange [JNum 1]] init)
           (Awaiting 0) (mkResult false (JNum 1))).
  reflexivity.
Defined.

(** X7.  [subscribeTo] directly followed by [return()] of the new
    iterator leaves the listener array of every event, the variables of
    the earlier iterators and the deferreds as they were: a subscription
    that is cancelled leaves no registration behind. *)
Theorem subscribe_then_cancel_restores (s : State) (e : EvtName) (b : bool) :
  exists s2,
    return_ (subscribeTo e b s).1 (subscribeTo e b s).2 =
      Some (Resolved (mkResult true JUndefined), s2) /\
    (forall e', EventEmitter.listeners (pub s2) e' = EventEmitter.listeners (pub s) e') /\
    (forall j, j < length (closures s) -> closures s2 !! j = closures s !! j) /\
    deferreds s2 = deferreds s.
Proof.
  simpl. unfold return_. simpl. rewrite list_lookup_middle by done. simpl.
  eexists. split; [done|]. simpl. split_and!.
  - intros e'. rewrite listeners_off. case_decide; subst.
    + rewrite listeners_on, decide_True by done. apply remove_last_snoc.
    + by rewrite listeners_on, decide_False.
  - intros j Hj. rewrite list_lookup_insert_ne by lia. by apply lookup_app_l.
  - done.
Qed.

Lemma subscribe_then_cancel_restores_witness :
  exists s2,
    return_ 1 (subscribeTo EvDevChange true
                 (run [OSubscribeTo EvDevChange false; ONext 0] init)).2 =
      Some (Resolved (mkResult true JUndefined), s2) /\
    closures s2 !! 0 = closures (run [OSubscribeTo EvDevChange false; ONext 0] init) !! 0.
Proof.
  destruct (subscribe_then_cancel_restores
              (run [OSubscribeTo EvDevChange false; ONext 0] init) EvDevChange true)
    as (s2 & Hret & _ & Hkept & _).
  exists s2. split; [exact Hret|]. apply Hkept. simpl. lia.
Defined.

Section InitialOnce.
Implicit Types (s t : State) (d i j : nat) (c : Closure) (e : EvtName).

Lemma own_next_or_not i (o : Op) : o = ONext i \/ o ≠ ONext i.
Proof.
  destruct o as [e b|j|j|e args]; try (by right).
  destruct (decide (j = i)) as [->|Hne]; [by left | right; congruence].
Qed.

Lemma pulls_of_cons_other i o ops s :
  o ≠ ONext i ->
  pulls_of i (o :: ops) (exec (o :: ops) s).1 = pulls_of i ops (exec ops (step o s)).1.
Proof.
  intros Ho. rewrite exec_cons. simpl fst.
  destruct o as [e b|j|j|e args]; simpl.
  - done.
  - destruct (next j s) as [[p s']|]; simpl; [|done].
    rewrite decide_False; [done | congruence].
  - by destruct (return_ j s) as [[p s']|].
  - by destruct (_emit e args s).
Qed.

Lemma pulls_of_cons_own i ops s p s' :
  next i s = Some (p, s') ->
  pulls_of i (ONext i :: ops) (exec (ONext i :: ops) s).1 =
  p :: pulls_of i ops (exec ops s').1.
Proof.
  intros Hn. rewrite exec_cons, step_next. simpl. rewrite Hn. simpl.
  by rewrite decide_True.
Qed.

Lemma waiting_iterator_only_awaits i ops s c :
  closures s !! i = Some c -> waits c -> Forall awaits (pulls_of i ops (exec ops s).1).
Proof.
  revert s c. induction ops as [|o ops IH]; intros s c Hc Hw; [constructor|].
  destruct (own_next_or_not i o) as [->|Ho].
  - rewrite (pulls_of_cons_own i ops s _ _ (next_waits i s c Hc Hw)).
    constructor; [done|].
    eapply (IH _ (mkClosure (evt c) (sendInitial c) (hasSentInitial c)
                            (Some (length (deferreds s))))); [|exact Hw].
    simpl. apply list_lookup_insert_eq. by eapply lookup_lt_Some.
  - rewrite (pulls_of_cons_other i o ops s Ho).
    destruct (step_flags o s i c Hc Ho) as (c' & Hc' & Hh & Hs).
    apply (IH _ c' Hc'). unfold waits in *. by rewrite Hh, Hs.
Qed.

End InitialOnce.

(** X8.  Of all the promises that the [next()] calls on one iterator
    return in a run, only the first can be the synthetic value, and it is
    exactly when the iterator was opened with [sendInitial] and has not
    sent it yet; every other one waits for a signal. *)
Theorem synthetic_value_only_first (s : State) (i : nat) (c : Closure) (ops : list Op) :
  closures s !! i = Some c ->
  (waits c -> Forall awaits (pulls_of i ops (exec ops s).1)) /\
  (~ waits c ->
   pulls_of i ops (exec ops s).1 = [] \/
   exists ps,
     pulls_of i ops (exec ops s).1 = Resolved (mkResult false (JObject [])) :: ps /\
     Forall awaits ps).
Proof.
  intros Hc. split; [by apply waiting_iterator_only_awaits|].
  revert s c Hc. induction ops as [|o ops IH]; intros s c Hc Hnw; [by left|].
  assert (hasSentInitial c = false /\ sendInitial c = true) as [Hh Hs].
  { unfold waits in Hnw. destruct (hasSentInitial c), (sendInitial c); tauto. }
  destruct (own_next_or_not i o) as [->|Ho].
  - right. destruct (next_is_Some i s c Hc) as (p & s' & Hn).
    rewrite (pulls_of_cons_own i ops s p s' Hn).
    apply next_Some in Hn as (c0 & Hc0 & _ & [(_&_&->&Hcl&_)|(Hw&_)]);
      simplify_eq; [|done].
    eexists. split; [done|].
    eapply (waiting_iterator_only_awaits i ops s').
    + rewrite Hcl. apply list_lookup_insert_eq. by eapply lookup_lt_Some.
    + by left.
  - rewrite (pulls_of_cons_other i o ops s Ho).
    destruct (step_flags o s i c Hc Ho) as (c' & Hc' & Hh' & Hs').
    apply (IH _ c' Hc'). unfold waits. rewrite Hh', Hs', Hh, Hs. by intros [|].
Qed.

Lemma synthetic_value_only_first_witness :
  Forall awaits
    (pulls_of 0 [ONext 0; OEmit EvAuthChange []; OReturn 0; ONext 0]
       (exec [ONext 0; OEmit EvAuthChange []; OReturn 0; ONext 0]
             (step (ONext 0) (subscribeTo EvAuthChange true init).2)).1).
Proof.
  destruct (synthetic_value_only_first
              (step (ONext 0) (subscribeTo EvAuthChange true init).2) 0
              (mkClosure EvAuthChange true true None)
              [ONext 0; OEmit EvAuthChange []; OReturn 0; ONext 0])
    as [Hw _].
  - reflexivity.
  - apply Hw. left. reflexivity.
Defined.

(** * The broadcasts *)

(** X9.  Through any sequence of [toApp] and [toLaunchpad] calls, each
    server is asked to emit exactly the [data-context-push] messages
    meant for it, in the order of the calls, whatever was sent to the
    other one; a server that is missing stays missing and the calls meant
    for it do nothing. *)
Theorem broadcasts_reach_their_server (ms : list (Target * list jsval)) (sv : Servers) :
  appSocketServer (broadcasts ms sv) =
    (fun log => log ++ sent_to ToApp ms) <$> appSocketServer sv /\
  gqlSocketServer (broadcasts ms sv) =
    (fun log => log ++ sent_to ToLaunchpad ms) <$> gqlSocketServer sv.
Proof.
  revert sv. induction ms as [|[t args] ms IH]; intros sv.
  - simpl. destruct sv as [[a|] [g|]]; simpl; by rewrite ?app_nil_r.
  - unfold broadcasts in *. simpl foldl. destruct (IH (broadcast (t, args) sv)) as [Ha Hg].
    rewrite Ha, Hg. destruct t, sv as [[a|] [g|]]; simpl;
      by rewrite <- ?app_assoc.
Qed.

(** * ProjectActions *)

Section Projects.
Import ProjectActions.
Implicit Types (env : Env) (ctx : Ctx) (root path : string) (ps : list ProjectShape).

Lemma has_root_elem root ps : has_root root ps = true <-> root ∈ map projectRoot ps.
Proof.
  unfold has_root. rewrite bool_decide_eq_true, list_elem_of_fmap. split.
  - intros [[k x] Hx]. apply list_find_Some in Hx as (Hk & Hp & _).
    exists x. split; [done | by eapply list_elem_of_lookup_2].
  - intros (x & -> & Hin).
    by apply (list_find_elem_of (fun y => projectRoot y = projectRoot x) ps x).
Qed.

Lemma has_root_not_elem root ps : has_root root ps = false <-> root ∉ map projectRoot ps.
Proof.
  rewrite <- has_root_elem. destruct (has_root root ps); split; congruence.
Qed.

Lemma filter_roots root ps :
  root ∉ map projectRoot ps ->
  filter (fun project => projectRoot project ≠ root) ps = ps.
Proof.
  induction ps as [|p ps IH]; [done|]. simpl. rewrite not_elem_of_cons.
  intros [Hp Hps]. rewrite filter_cons_True by done. by rewrite IH.
Qed.

Lemma setActiveProject_keeps env root ctx :
  projects (setActiveProject env root ctx).1 = projects ctx /\
  api_calls (setActiveProject env root ctx).1 = api_calls ctx.
Proof.
  unfold setActiveProject.
  destruct (isFirstTimeAccessing env root component); [|done].
  by destruct (isFirstTimeAccessing env root e2e).
Qed.

Lemma setActiveProject_twice env root ctx :
  setActiveProject env root (setActiveProject env root ctx).1 =
  setActiveProject env root ctx.
Proof.
  unfold setActiveProject.
  destruct (isFirstTimeAccessing env root component) as [b1|m1]; simpl; [|done].
  by destruct (isFirstTimeAccessing env root e2e) as [b2|m2].
Qed.

End Projects.

(** X10.  When the directory is found, the project list holds it after
    [addProject], whether the call resolves or not.  If it was listed
    already, the list and the API calls are as before; if not, one entry
    is appended and [insertProjectToCache] is called once with it.  A list
    without repeated roots stays without repeats.  Without [open] the
    call resolves and the active project is as before.  With [open] it
    resolves when both [isFirstTimeAccessing] calls do, and the active
    project is then the directory with an empty title, both plugin flags
    off and the two answers; when one of them rejects, [addProject]
    rejects with that error and the active project is as before. *)
Theorem addProject_lists_root_once
    (env : ProjectActions.Env) (path : string) (open : bool)
    (ctx : ProjectActions.Ctx) (root : string) :
  ProjectActions.getDirectoryPath env path = ProjectActions.Ok root ->
  root ∈ map ProjectActions.projectRoot
         (ProjectActions.projects (ProjectActions.addProject env path open ctx).1) /\
  (root ∈ map ProjectActions.projectRoot (ProjectActions.projects ctx) ->
   ProjectActions.projects (ProjectActions.addProject env path open ctx).1 =
     ProjectActions.projects ctx /\
   ProjectActions.api_calls (ProjectActions.addProject env path open ctx).1 =
     ProjectActions.api_calls ctx) /\
  (root ∉ map ProjectActions.projectRoot (ProjectActions.projects ctx) ->
   ProjectActions.projects (ProjectActions.addProject env path open ctx).1 =
     ProjectActions.projects ctx ++ [ProjectActions.mkProject root []] /\
   ProjectActions.api_calls (ProjectActions.addProject env path open ctx).1 =
     ProjectActions.api_calls ctx ++ [ProjectActions.InsertProjectToCache root]) /\
  (NoDup (map ProjectActions.projectRoot (ProjectActions.projects ctx)) ->
   NoDup (map ProjectActions.projectRoot
            (ProjectActions.projects (ProjectActions.addProject env path open ctx).1))) /\
  (open = false ->
   (ProjectActions.addProject env path open ctx).2 = ProjectActions.Ok tt /\
   ProjectActions.activeProject (ProjectActions.addProject env path open ctx).1 =
     ProjectActions.activeProject ctx) /\
  (open = true ->
   forall firstCT firstE2E,
     ProjectActions.isFirstTimeAccessing env root ProjectActions.component
       = ProjectActions.Ok firstCT ->
     ProjectActions.isFirstTimeAccessing env root ProjectActions.e2e
       = ProjectActions.Ok firstE2E ->
     (ProjectActions.addProject env path open ctx).2 = ProjectActions.Ok tt /\
     ProjectActions.activeProject (ProjectActions.addProject env path open ctx).1 =
       Some (ProjectActions.mkActive root "" false false firstCT firstE2E)) /\
  (open = true ->
   forall msg,
     ProjectActions.isFirstTimeAccessing env root ProjectActions.component
       = ProjectActions.Failed msg \/
     ((exists firstCT,
         ProjectActions.isFirstTimeAccessing env root ProjectActions.component
           = ProjectActions.Ok firstCT) /\
      ProjectActions.isFirstTimeAccessing env root ProjectActions.e2e
        = ProjectActions.Failed msg) ->
     (ProjectActions.addProject env path open ctx).2 = ProjectActions.Failed msg /\
     ProjectActions.activeProject (ProjectActions.addProject env path open ctx).1 =
       ProjectActions.activeProject ctx).
Proof.
  intros Hdir.
  assert (forall c,
            ProjectActions.projects (ProjectActions.setActiveProject env root c).1 =
              ProjectActions.projects c /\
            ProjectActions.api_calls (ProjectActions.setActiveProject env root c).1 =
              ProjectActions.api_calls c) as Hset.
  { intros c. unfold ProjectActions.setActiveProject.
    destruct (ProjectActions.isFirstTimeAccessing env root ProjectActions.component);
      [|done].
    by destruct (ProjectActions.isFirstTimeAccessing env root ProjectActions.e2e). }
  assert (forall c, open = true -> forall msg,
            ProjectActions.isFirstTimeAccessing env root ProjectActions.component
              = ProjectActions.Failed msg \/
            ((exists firstCT,
                ProjectActions.isFirstTimeAccessing env root ProjectActions.component
                  = ProjectActions.Ok firstCT) /\
             ProjectActions.isFirstTimeAccessing env root ProjectActions.e2e
               = ProjectActions.Failed msg) ->
            ProjectActions.setActiveProject env root c = (c, ProjectActions.Failed msg))
    as Hrej.
  { intros c _ msg [Hc|[[b Hc] He]]; unfold ProjectActions.setActiveProject;
      rewrite Hc; [done | by rewrite He]. }
  unfold ProjectActions.addProject. rewrite Hdir.
  destruct (ProjectActions.has_root root (ProjectActions.projects ctx)) eqn:Hhas.
  - apply has_root_elem in Hhas. split_and!.
    + destruct open; [by rewrite (proj1 (Hset ctx)) | done].
    + intros _. destruct open; [apply Hset | done].
    + intros Hn. by destruct Hn.
    + intros Hnd. destruct open; [by rewrite (proj1 (Hset ctx)) | done].
    + by intros ->.
    + intros -> b1 b2 H1 H2. unfold ProjectActions.setActiveProject.
      by rewrite H1, H2.
    + intros -> msg Hmsg. by rewrite (Hrej ctx eq_refl msg Hmsg).
  - apply has_root_not_elem in Hhas.
    set (ctx1 := ProjectActions.mkCtx _ _ _).
    assert (root ∈ map ProjectActions.projectRoot (ProjectActions.projects ctx1)) as Hin.
    { unfold ctx1. simpl. rewrite map_app, elem_of_app. right. by left. }
    split_and!.
    + destruct open; [by rewrite (proj1 (Hset ctx1)) | done].
    + intros Hold. by destruct Hhas.
    + intros _. destruct open; [apply Hset | done].
    + intros Hnd.
      assert (NoDup (map ProjectActions.projectRoot (ProjectActions.projects ctx1))).
      { unfold ctx1. simpl. rewrite map_app. apply NoDup_app.
        split_and!; [done| |apply NoDup_singleton].
        by intros x Hx ->%list_elem_of_singleton. }
      destruct open; [by rewrite (proj1 (Hset ctx1)) | done].
    + by intros ->.
    + intros -> b1 b2 H1 H2. unfold ProjectActions.setActiveProject.
      by rewrite H1, H2.
    + intros -> msg Hmsg. by rewrite (Hrej ctx1 eq_refl msg Hmsg).
Qed.

Lemma addProject_lists_root_once_witness :
  (ProjectActions.addProject
     (ProjectActions.mkEnv (fun p => ("/home", "app")) (fun d b => d +:+ "/" +:+ b)
        (fun _ => Some true)
        (fun _ t => match t with
                    | ProjectActions.component => ProjectActions.Ok true
                    | ProjectActions.e2e => ProjectActions.Failed "EACCES"
                    end)
        ProjectActions.projects)
     "/home/app" true
     (ProjectActions.mkCtx [] None [])).2
  = ProjectActions.Failed "EACCES" /\
  ProjectActions.projects
    (ProjectActions.addProject
       (ProjectActions.mkEnv (fun p => ("/home", "app")) (fun d b => d +:+ "/" +:+ b)
          (fun _ => Some true)
          (fun _ t => match t with
                      | ProjectActions.component => ProjectActions.Ok true
                      | ProjectActions.e2e => ProjectActions.Failed "EACCES"
                      end)
          ProjectActions.projects)
       "/home/app" true
       (ProjectActions.mkCtx [] None [])).1
  = [] ++ [ProjectActions.mkProject "/home/app" []].
Proof.
  destruct (addProject_lists_root_once
              (ProjectActions.mkEnv (fun p => ("/home", "app")) (fun d b => d +:+ "/" +:+ b)
                 (fun _ => Some true)
                 (fun _ t => match t with
                             | ProjectActions.component => ProjectActions.Ok true
                             | ProjectActions.e2e => ProjectActions.Failed "EACCES"
                             end)
                 ProjectActions.projects)
              "/home/app" true (ProjectActions.mkCtx [] None []) "/home/app")
    as (_ & _ & Hnew & _ & _ & _ & Hrej).
  - reflexivity.
  - split.
    + apply (Hrej eq_refl "EACCES"). right. split; [by exists true | reflexivity].
    + apply Hnew. simpl. apply not_elem_of_nil.
Defined.

(** X11.  [addProject] with the same arguments a second time changes
    nothing: same outcome (resolved, or rejected with the same error),
    same project list, same API calls, same active project.  The cache is
    written on the first call only, also when that call rejected after
    writing it. *)
Theorem addProject_twice
    (env : ProjectActions.Env) (path : string) (open : bool) (ctx : ProjectActions.Ctx) :
  ProjectActions.addProject env path open (ProjectActions.addProject env path open ctx).1 =
  ProjectActions.addProject env path open ctx.
Proof.
  unfold ProjectActions.addProject.
  destruct (ProjectActions.getDirectoryPath env path) as [root|msg]; [|done].
  set (ctx1 := if ProjectActions.has_root root (ProjectActions.projects ctx)
               then ctx else _).
  assert (ProjectActions.has_root root (ProjectActions.projects ctx1) = true) as Hnow.
  { unfold ctx1.
    destruct (ProjectActions.has_root root (ProjectActions.projects ctx)) eqn:Hhas;
      [done|].
    apply has_root_elem. simpl. rewrite map_app, elem_of_app. right. by left. }
  destruct open; simpl.
  - rewrite (proj1 (setActiveProject_keeps env root ctx1)), Hnow.
    apply setActiveProject_twice.
  - by rewrite Hnow.
Qed.

(** X12.  When [stat] of the joined path rejects, [addProject] throws the
    error that names the path it was given, and nothing has been changed:
    no project added, no API call made, the active project as before.
    [addProject] rejects in one other case only: the directory is found,
    [open] is set and a call of [isFirstTimeAccessing] rejects.  The store
    is then the one the same call without [open] leaves: the project is
    listed and the cache written, the active project is as before. *)
Theorem addProject_fails_on_missing_directory
    (env : ProjectActions.Env) (path : string) (open : bool) (ctx : ProjectActions.Ctx) :
  (ProjectActions.fs_stat env
     (ProjectActions.path_join env (ProjectActions.path_parse env path).1
                                   (ProjectActions.path_parse env path).2) = None ->
   ProjectActions.addProject env path open ctx =
   (ctx, ProjectActions.Failed
           ("Cannot add " +:+ path +:+
            " to projects as it does not exist in the file system"))) /\
  ((ProjectActions.addProject env path open ctx).2 ≠ ProjectActions.Ok tt <->
   ProjectActions.fs_stat env
     (ProjectActions.path_join env (ProjectActions.path_parse env path).1
                                   (ProjectActions.path_parse env path).2) = None \/
   (open = true /\
    exists root msg,
      ProjectActions.getDirectoryPath env path = ProjectActions.Ok root /\
      (ProjectActions.isFirstTimeAccessing env root ProjectActions.component
         = ProjectActions.Failed msg \/
       ProjectActions.isFirstTimeAccessing env root ProjectActions.e2e
         = ProjectActions.Failed msg))) /\
  (forall root,
     ProjectActions.getDirectoryPath env path = ProjectActions.Ok root ->
     (ProjectActions.addProject env path open ctx).2 ≠ ProjectActions.Ok tt ->
     (ProjectActions.addProject env path open ctx).1 =
     (ProjectActions.addProject env path false ctx).1).
Proof.
  assert (forall root c,
            (ProjectActions.setActiveProject env root c).2 ≠ ProjectActions.Ok tt <->
            exists msg,
              ProjectActions.isFirstTimeAccessing env root ProjectActions.component
                = ProjectActions.Failed msg \/
              ProjectActions.isFirstTimeAccessing env root ProjectActions.e2e
                = ProjectActions.Failed msg) as Hset.
  { intros root c. unfold ProjectActions.setActiveProject.
    destruct (ProjectActions.isFirstTimeAccessing env root ProjectActions.component)
      as [b1|m1]; simpl.
    - destruct (ProjectActions.isFirstTimeAccessing env root ProjectActions.e2e)
        as [b2|m2]; simpl.
      + split; [done|]. by intros (msg & [?|?]).
      + split; [|done]. intros _. exists m2. by right.
    - split; [|done]. intros _. exists m1. by left. }
  assert (forall root c,
            (ProjectActions.setActiveProject env root c).2 ≠ ProjectActions.Ok tt ->
            (ProjectActions.setActiveProject env root c).1 = c) as Hkeep.
  { intros root c. unfold ProjectActions.setActiveProject.
    destruct (ProjectActions.isFirstTimeAccessing env root ProjectActions.component);
      simpl; [|done].
    by destruct (ProjectActions.isFirstTimeAccessing env root ProjectActions.e2e). }
  unfold ProjectActions.addProject, ProjectActions.getDirectoryPath.
  destruct (ProjectActions.path_parse env path) as [dir base]. simpl.
  destruct (ProjectActions.fs_stat env (ProjectActions.path_join env dir base))
    as [[|]|]; simpl.
  - split_and!; [done| |].
    + destruct open; simpl.
      * rewrite Hset. split.
        -- intros (msg & Hmsg). right. split; [done|]. eauto.
        -- intros [?|(_ & root & msg & [= <-] & Hmsg)]; [done|]. eauto.
      * split; [done|]. by intros [?|[? _]].
    + intros root [= <-]. destruct open; simpl; [apply Hkeep | done].
  - split_and!; [done| |].
    + destruct open; simpl.
      * rewrite Hset. split.
        -- intros (msg & Hmsg). right. split; [done|]. eauto.
        -- intros [?|(_ & root & msg & [= <-] & Hmsg)]; [done|]. eauto.
      * split; [done|]. by intros [?|[? _]].
    + intros root [= <-]. destruct open; simpl; [apply Hkeep | done].
  - split_and!; [done| |done]. split; [by left | done].
Qed.

Lemma addProject_fails_on_missing_directory_witness :
  ProjectActions.addProject
    (ProjectActions.mkEnv (fun p => ("/nowhere", "x")) (fun d b => d +:+ "/" +:+ b)
       (fun _ => None) (fun _ _ => ProjectActions.Ok true) ProjectActions.projects)
    "/nowhere/x" true
    (ProjectActions.mkCtx [ProjectActions.mkProject "/a" []] None [])
  = (ProjectActions.mkCtx [ProjectActions.mkProject "/a" []] None [],
     ProjectActions.Failed
       ("Cannot add " +:+ "/nowhere/x" +:+
        " to projects as it does not exist in the file system")) /\
  (ProjectActions.addProject
     (ProjectActions.mkEnv (fun p => ("/w", "app")) (fun d b => d +:+ "/" +:+ b)
        (fun _ => Some true) (fun _ _ => ProjectActions.Failed "EACCES")
        ProjectActions.projects)
     "/w/app" true (ProjectActions.mkCtx [] None [])).1
  = (ProjectActions.addProject
       (ProjectActions.mkEnv (fun p => ("/w", "app")) (fun d b => d +:+ "/" +:+ b)
          (fun _ => Some true) (fun _ _ => ProjectActions.Failed "EACCES")
          ProjectActions.projects)
       "/w/app" false (ProjectActions.mkCtx [] None [])).1.
Proof.
  split.
  - apply (addProject_fails_on_missing_directory
             (ProjectActions.mkEnv (fun p => ("/nowhere", "x")) (fun d b => d +:+ "/" +:+ b)
                (fun _ => None) (fun _ _ => ProjectActions.Ok true)
                ProjectActions.projects)
             "/nowhere/x" true
             (ProjectActions.mkCtx [ProjectActions.mkProject "/a" []] None [])).
    reflexivity.
  - destruct (addProject_fails_on_missing_directory
                (ProjectActions.mkEnv (fun p => ("/w", "app")) (fun d b => d +:+ "/" +:+ b)
                   (fun _ => Some true) (fun _ _ => ProjectActions.Failed "EACCES")
                   ProjectActions.projects)
                "/w/app" true (ProjectActions.mkCtx [] None []))
      as (_ & _ & Hlisted).
    apply (Hlisted "/w/app").
    + reflexivity.
    + discriminate.
Defined.

(** X13.  [removeProject] for a root that [ctx.projectsList] knows takes
    every entry with that root out of the project list and keeps the
    others in their order, calls [removeProjectFromCache] once with the
    root, and leaves the active project as it is, also when that is the
    project removed.  For a root that is not known it throws, naming the
    root, and changes nothing. *)
Theorem removeProject_known_or_throws
    (env : ProjectActions.Env) (root : string) (ctx : ProjectActions.Ctx) :
  (root ∈ map ProjectActions.projectRoot (ProjectActions.projectsList env ctx) ->
   (ProjectActions.removeProject env root ctx).2 = ProjectActions.Ok tt /\
   (root ∉ map ProjectActions.projectRoot
             (ProjectActions.projects (ProjectActions.removeProject env root ctx).1)) /\
   ProjectActions.projects (ProjectActions.removeProject env root ctx).1 =
     filter (fun p => ProjectActions.projectRoot p ≠ root) (ProjectActions.projects ctx) /\
   ProjectActions.api_calls (ProjectActions.removeProject env root ctx).1 =
     ProjectActions.api_calls ctx ++ [ProjectActions.RemoveProjectFromCache root] /\
   ProjectActions.activeProject (ProjectActions.removeProject env root ctx).1 =
     ProjectActions.activeProject ctx) /\
  (root ∉ map ProjectActions.projectRoot (ProjectActions.projectsList env ctx) ->
   ProjectActions.removeProject env root ctx =
   (ctx, ProjectActions.Failed
           ("Cannot remove " +:+ root +:+ ", it is not a known project"))).
Proof.
  unfold ProjectActions.removeProject. split.
  - intros Hin. apply has_root_elem in Hin. rewrite Hin. simpl.
    split_and!; try done.
    rewrite list_elem_of_fmap. intros (p & -> & Hp).
    apply list_elem_of_filter in Hp as [Hp _]. done.
  - intros Hout. apply has_root_not_elem in Hout. by rewrite Hout.
Qed.

Lemma removeProject_known_or_throws_witness :
  ProjectActions.projects
    (ProjectActions.removeProject
       (ProjectActions.mkEnv (fun p => ("", p)) (fun d b => b)
          (fun _ => Some true) (fun _ _ => ProjectActions.Ok true) ProjectActions.projects)
       "/b"
       (ProjectActions.mkCtx
          [ProjectActions.mkProject "/a" []; ProjectActions.mkProject "/b" [];
           ProjectActions.mkProject "/c" []; ProjectActions.mkProject "/b" []]
          None [])).1
  = [ProjectActions.mkProject "/a" []; ProjectActions.mkProject "/c" []] /\
  ProjectActions.removeProject
    (ProjectActions.mkEnv (fun p => ("", p)) (fun d b => b)
       (fun _ => Some true) (fun _ _ => ProjectActions.Ok true) ProjectActions.projects)
    "/z" (ProjectActions.mkCtx [ProjectActions.mkProject "/a" []] None [])
  = (ProjectActions.mkCtx [ProjectActions.mkProject "/a" []] None [],
     ProjectActions.Failed ("Cannot remove " +:+ "/z" +:+ ", it is not a known project")).
Proof.
  split.
  - destruct (removeProject_known_or_throws
                (ProjectActions.mkEnv (fun p => ("", p)) (fun d b => b)
                   (fun _ => Some true) (fun _ _ => ProjectActions.Ok true) ProjectActions.projects)
                "/b"
                (ProjectActions.mkCtx
                   [ProjectActions.mkProject "/a" []; ProjectActions.mkProject "/b" [];
                    ProjectActions.mkProject "/c" []; ProjectActions.mkProject "/b" []]
                   None [])) as [Hknown _].
    destruct Hknown as (_ & _ & Hfilter & _).
    + apply list_elem_of_In. simpl. right. left. reflexivity.
    + rewrite Hfilter. reflexivity.
  - apply (removeProject_known_or_throws
             (ProjectActions.mkEnv (fun p => ("", p)) (fun d b => b)
                (fun _ => Some true) (fun _ _ => ProjectActions.Ok true) ProjectActions.projects)
             "/z" (ProjectActions.mkCtx [ProjectActions.mkProject "/a" []] None [])).
    apply not_elem_of_cons. split; [discriminate | apply not_elem_of_nil].
Defined.

(** X14.  With [ctx.projectsList] being the project list itself: adding
    a directory that was not listed (without opening it) and removing it
    again gives back the project list, and the API has seen one insert
    and one remove for it, in that order. *)
Theorem addProject_then_removeProject
    (env : ProjectActions.Env) (path : string) (ctx : ProjectActions.Ctx) (root : string) :
  (forall c, ProjectActions.projectsList env c = ProjectActions.projects c) ->
  ProjectActions.getDirectoryPath env path = ProjectActions.Ok root ->
  root ∉ map ProjectActions.projectRoot (ProjectActions.projects ctx) ->
  ProjectActions.removeProject env root (ProjectActions.addProject env path false ctx).1 =
  (ProjectActions.mkCtx
     (ProjectActions.projects ctx) (ProjectActions.activeProject ctx)
     (ProjectActions.api_calls ctx ++
        [ProjectActions.InsertProjectToCache root;
         ProjectActions.RemoveProjectFromCache root]),
   ProjectActions.Ok tt).
Proof.
  intros Hlist Hdir Hnew.
  unfold ProjectActions.addProject. rewrite Hdir.
  rewrite (proj2 (has_root_not_elem root _) Hnew). simpl.
  unfold ProjectActions.removeProject. rewrite Hlist. simpl.
  assert (ProjectActions.has_root root
            (ProjectActions.projects ctx ++ [ProjectActions.mkProject root []]) = true)
    as ->.
  { apply has_root_elem. rewrite map_app, elem_of_app. right. by left. }
  rewrite filter_app, filter_roots by done.
  rewrite filter_cons_False by (simpl; by intros H; apply H).
  rewrite filter_nil, app_nil_r, <- app_assoc. done.
Qed.

Lemma addProject_then_removeProject_witness :
  ProjectActions.removeProject
    (ProjectActions.mkEnv (fun p => ("/home", "app")) (fun d b => d +:+ "/" +:+ b)
       (fun _ => Some false) (fun _ _ => ProjectActions.Ok true) ProjectActions.projects)
    "/home"
    (ProjectActions.addProject
       (ProjectActions.mkEnv (fun p => ("/home", "app")) (fun d b => d +:+ "/" +:+ b)
          (fun _ => Some false) (fun _ _ => ProjectActions.Ok true) ProjectActions.projects)
       "/home/app" false
       (ProjectActions.mkCtx [ProjectActions.mkProject "/a" []] None [])).1
  = (ProjectActions.mkCtx [ProjectActions.mkProject "/a" []] None
       ([] ++ [ProjectActions.InsertProjectToCache "/home";
               ProjectActions.RemoveProjectFromCache "/home"]),
     ProjectActions.Ok tt).
Proof.
  apply (addProject_then_removeProject
           (ProjectActions.mkEnv (fun p => ("/home", "app")) (fun d b => d +:+ "/" +:+ b)
              (fun _ => Some false) (fun _ _ => ProjectActions.Ok true) ProjectActions.projects)
           "/home/app" (ProjectActions.mkCtx [ProjectActions.mkProject "/a" []] None [])
           "/home").
  - reflexivity.
  - reflexivity.
  - apply not_elem_of_cons. split; [discriminate | apply not_elem_of_nil].
Defined.

(** X15.  [initializeActiveProject] throws "without an active project"
    exactly when there is no active project, or its [projectRoot] is the
    empty string, or no testing type is chosen; the message "without
    choosing testingType" of its second check is never thrown.  Otherwise
    it calls [initializeProject] once, with the launch options as they
    are, a copy of the browser list (empty when there is none), and the
    launch arguments in which [projectRoot] and [testingType] are those of
    the context, whatever the launch arguments held under these two
    names, and every other entry is as given. *)
Theorem initializeActiveProject_checks
    (active : option ProjectActions.ActiveProject)
    (chosenTestingType : option ProjectActions.TestingType)
    (browserList : option (list ProjectActions.FoundBrowser))
    (launchArgs : gmap string jsval) (launchOptions : jsval) :
  ProjectActions.initializeActiveProject active chosenTestingType browserList
      launchArgs launchOptions
    ≠ ProjectActions.Failed "Cannot initialize project without choosing testingType" /\
  (ProjectActions.initializeActiveProject active chosenTestingType browserList
       launchArgs launchOptions
     = ProjectActions.Failed "Cannot initialize project without an active project" <->
   active = None \/
   (exists a, active = Some a /\ ProjectActions.active_projectRoot a = "") \/
   chosenTestingType = None) /\
  (forall a t,
     active = Some a -> ProjectActions.active_projectRoot a ≠ "" ->
     chosenTestingType = Some t ->
     exists la,
       ProjectActions.initializeActiveProject active chosenTestingType browserList
           launchArgs launchOptions
         = ProjectActions.Ok
             (ProjectActions.InitializeProject la launchOptions (default [] browserList)) /\
       la !! "projectRoot" = Some (JStr (ProjectActions.active_projectRoot a)) /\
       la !! "testingType" = Some (JStr (ProjectActions.testingType_name t)) /\
       forall k, k ≠ "projectRoot" -> k ≠ "testingType" -> la !! k = launchArgs !! k).
Proof.
  unfold ProjectActions.initializeActiveProject, ProjectActions.no_projectRoot,
    ProjectActions.no_testingType.
  split_and!.
  - destruct active as [a|], chosenTestingType as [t|]; simpl; try done;
      by destruct (bool_decide (ProjectActions.active_projectRoot a = "")).
  - destruct active as [a|], chosenTestingType as [t|]; simpl.
    + case_bool_decide as Hroot; simpl.
      * split; [|done]. intros _. right. left. by exists a.
      * split; [done|]. intros [?|[(a' & [= <-] & ?)|?]]; done.
    + rewrite orb_true_r. split; [|done]. intros _. right. by right.
    + split; [|done]. intros _. by left.
    + split; [|done]. intros _. by left.
  - intros a t -> Hroot ->. simpl. rewrite bool_decide_eq_false_2 by done. simpl.
    eexists. split; [done|]. split_and!.
    + rewrite lookup_insert_ne by done. by rewrite lookup_insert_eq.
    + by rewrite lookup_insert_eq.
    + intros k Hk1 Hk2. by rewrite !lookup_insert_ne.
Qed.

Lemma initializeActiveProject_checks_witness :
  exists la,
    ProjectActions.initializeActiveProject
      (Some (ProjectActions.mkActive "/p" "" false false true true))
      (Some ProjectActions.e2e) None
      {[ "projectRoot" := JStr "/other"; "port" := JNum 8080 ]} JNull
    = ProjectActions.Ok (ProjectActions.InitializeProject la JNull (default [] None)) /\
    la !! "projectRoot" = Some (JStr "/p") /\
    la !! "testingType" = Some (JStr (ProjectActions.testingType_name ProjectActions.e2e)) /\
    forall k, k ≠ "projectRoot" -> k ≠ "testingType" ->
              la !! k = ({[ "projectRoot" := JStr "/other"; "port" := JNum 8080 ]}
                           : gmap string jsval) !! k.
Proof.
  destruct (initializeActiveProject_checks
              (Some (ProjectActions.mkActive "/p" "" false false true true))
              (Some ProjectActions.e2e) None
              {[ "projectRoot" := JStr "/other"; "port" := JNum 8080 ]} JNull)
    as (_ & _ & Hcall).
  apply (Hcall (ProjectActions.mkActive "/p" "" false false true true) ProjectActions.e2e).
  - reflexivity.
  - discriminate.
  - reflexivity.
Defined.

(** X16.  [launchProject] throws "Could not find browser" exactly when no
    browser is chosen and the browser list is missing or empty.  A chosen
    browser is launched even when the list has others; without one, the
    first of the list is.  The spec it launches has empty names, and its
    type is [integration] only for the testing type [e2e]: with
    [component], and with no testing type chosen, it is [component]. *)
Theorem launchProject_browser_choice
    (chosenBrowser : option ProjectActions.FoundBrowser)
    (browsers : option (list ProjectActions.FoundBrowser))
    (chosenTestingType : option ProjectActions.TestingType) :
  (ProjectActions.launchProject chosenBrowser browsers chosenTestingType
     = ProjectActions.Failed "Could not find browser" <->
   chosenBrowser = None /\ (browsers = None \/ browsers = Some [])) /\
  (forall b,
     chosenBrowser = Some b \/
     (chosenBrowser = None /\ exists bs, browsers = Some (b :: bs)) ->
     ProjectActions.launchProject chosenBrowser browsers chosenTestingType
     = ProjectActions.Ok
         (ProjectActions.LaunchProject b
            (ProjectActions.mkSpec "" "" ""
               (match chosenTestingType with
                | Some ProjectActions.e2e => "integration"
                | Some ProjectActions.component | None => "component"
                end)))).
Proof.
  unfold ProjectActions.launchProject. split.
  - destruct chosenBrowser as [b|]; [split; [done | by intros [? _]]|].
    destruct browsers as [[|b bs]|]; simpl.
    + split; [intros _; split; [done | by right] | done].
    + split; [done|]. by intros [_ [?|?]].
    + split; [intros _; split; [done | by left] | done].
  - intros b [->|[-> (bs & ->)]]; simpl;
      by destruct chosenTestingType as [[]|].
Qed.

Lemma launchProject_browser_choice_witness :
  ProjectActions.launchProject None
    (Some [ProjectActions.mkBrowser "chrome"; ProjectActions.mkBrowser "firefox"]) None
  = ProjectActions.Ok
      (ProjectActions.LaunchProject (ProjectActions.mkBrowser "chrome")
         (ProjectActions.mkSpec "" "" "" "component")).
Proof.
  destruct (launchProject_browser_choice None
              (Some [ProjectActions.mkBrowser "chrome"; ProjectActions.mkBrowser "firefox"])
              None) as [_ Hlaunch].
  apply Hlaunch. right. split; [reflexivity|].
  exists [ProjectActions.mkBrowser "firefox"]. reflexivity.
Defined.

(** * The dependency installer *)

Section Installer.
Import DepInstaller.
Implicit Types (deps : Dependencies) (u : list string) (field : option Dependencies).
Variable pathToPackage : string -> option string.

Lemma prefix_empty (s : string) : String.prefix "" s = true.
Proof. by destruct s. Qed.

Lemma prefix_file (absPath : string) : String.prefix "file:" ("file:" +:+ absPath) = true.
Proof. simpl. apply prefix_empty. Qed.

Lemma file_deps_cons dep version deps :
  file_deps ((dep, version) :: deps) =
  if String.prefix "file:" version then dep :: file_deps deps else file_deps deps.
Proof.
  unfold file_deps. destruct (String.prefix "file:" version) eqn:Hp.
  - by rewrite filter_cons_True.
  - rewrite filter_cons_False; [done|]. simpl. by rewrite Hp.
Qed.

Lemma absolutize_Some deps u deps' u' :
  absolutize pathToPackage deps u = Some (deps', u') ->
  u' = u ++ file_deps deps /\ Forall2 (rewritten pathToPackage) deps deps'.
Proof.
  revert u deps' u'. induction deps as [|[dep version] deps IH]; intros u deps' u'; simpl.
  - intros [= <- <-]. by rewrite app_nil_r.
  - rewrite file_deps_cons. destruct (String.prefix "file:" version) eqn:Hp.
    + destruct (pathToPackage dep) as [absPath|] eqn:Hpath; [|done].
      destruct (absolutize pathToPackage deps (u ++ [dep])) as [[rest' w]|] eqn:Hrest;
        [|done].
      intros [= <- <-]. destruct (IH _ _ _ Hrest) as [-> Hall].
      split; [by rewrite <- app_assoc|]. constructor; [|done].
      split; [done|]. simpl. rewrite Hp. by exists absPath.
    + destruct (absolutize pathToPackage deps u) as [[rest' w]|] eqn:Hrest; [|done].
      intros [= <- <-]. destruct (IH _ _ _ Hrest) as [-> Hall].
      split; [done|]. constructor; [|done]. split; [done|]. simpl. by rewrite Hp.
Qed.

Lemma absolutize_None deps u :
  absolutize pathToPackage deps u = None <->
  exists dep, dep ∈ file_deps deps /\ pathToPackage dep = None.
Proof.
  revert u. induction deps as [|[dep version] deps IH]; intros u; simpl.
  - split; [done|]. intros (dep & Hin & _). by apply elem_of_nil in Hin.
  - rewrite file_deps_cons. destruct (String.prefix "file:" version) eqn:Hp.
    + destruct (pathToPackage dep) as [absPath|] eqn:Hpath.
      * destruct (absolutize pathToPackage deps (u ++ [dep])) as [[rest' w]|] eqn:Hrest.
        -- split; [done|]. intros (x & [->|Hin]%elem_of_cons & Hx); [congruence|].
           assert (absolutize pathToPackage deps (u ++ [dep]) = None) as H
             by (apply IH; eauto). congruence.
        -- apply IH in Hrest as (x & Hin & Hx). split; [|done]. intros _.
           exists x. split; [by right | done].
      * split; [|done]. intros _. exists dep. split; [by left | done].
    + destruct (absolutize pathToPackage deps u) as [[rest' w]|] eqn:Hrest.
      * split; [done|]. intros (x & Hin & Hx).
        assert (absolutize pathToPackage deps u = None) as H by (apply IH; eauto).
        congruence.
      * apply IH in Hrest. by split.
Qed.

Lemma absolutize_again deps u deps' u' w :
  absolutize pathToPackage deps u = Some (deps', u') ->
  absolutize pathToPackage deps' w = Some (deps', w ++ file_deps deps).
Proof.
  revert u deps' u' w. induction deps as [|[dep version] deps IH]; intros u deps' u' w; simpl.
  - intros [= <- <-]. simpl. by rewrite app_nil_r.
  - rewrite file_deps_cons. destruct (String.prefix "file:" version) eqn:Hp.
    + destruct (pathToPackage dep) as [absPath|] eqn:Hpath; [|done].
      destruct (absolutize pathToPackage deps (u ++ [dep])) as [[rest' v]|] eqn:Hrest;
        [|done].
      intros [= <- <-]. cbn [absolutize]. rewrite prefix_file, Hpath.
      rewrite (IH _ _ _ (w ++ [dep]) Hrest). by rewrite <- app_assoc.
    + destruct (absolutize pathToPackage deps u) as [[rest' v]|] eqn:Hrest; [|done].
      intros [= <- <-]. cbn [absolutize]. rewrite Hp.
      by rewrite (IH _ _ _ w Hrest).
Qed.

Lemma absolutize_field_Some field u field' u' :
  absolutize_field pathToPackage field u = Some (field', u') ->
  u' = u ++ field_deps field /\
  option_Forall2 (Forall2 (rewritten pathToPackage)) field field'.
Proof.
  unfold absolutize_field, field_deps. destruct field as [deps|]; simpl.
  - destruct (absolutize pathToPackage deps u) as [[deps' w]|] eqn:Hd; [|done].
    intros [= <- <-]. destruct (absolutize_Some _ _ _ _ Hd) as [-> Hall].
    split; [done | by constructor].
  - intros [= <- <-]. unfold file_deps. simpl. rewrite app_nil_r.
    split; [done | constructor].
Qed.

Lemma absolutize_field_None field u :
  absolutize_field pathToPackage field u = None <->
  exists dep, dep ∈ field_deps field /\ pathToPackage dep = None.
Proof.
  unfold absolutize_field, field_deps. destruct field as [deps|]; simpl.
  - rewrite <- (absolutize_None deps u).
    by destruct (absolutize pathToPackage deps u) as [[deps' w]|].
  - split; [done|]. intros (dep & Hin & _). by apply elem_of_nil in Hin.
Qed.

Lemma absolutize_field_again field u field' u' w :
  absolutize_field pathToPackage field u = Some (field', u') ->
  absolutize_field pathToPackage field' w = Some (field', w ++ field_deps field).
Proof.
  unfold absolutize_field, field_deps. destruct field as [deps|]; simpl.
  - destruct (absolutize pathToPackage deps u) as [[deps' v]|] eqn:Hd; [|done].
    intros [= <- <-]. by rewrite (absolutize_again _ _ _ _ w Hd).
  - intros [= <- <-]. unfold file_deps. simpl. by rewrite app_nil_r.
Qed.

End Installer.

(** X17.  When [makeWorkspacePackagesAbsolute] returns, the list it
    returns names exactly the entries whose version starts with [file:],
    in the order visited: [dependencies], [devDependencies],
    [optionalDependencies].  In the object written back every field has
    the same names in the same order; such an entry has the version
    [file:] followed by the path of the package, every other entry its
    old version; a field that was missing is still missing. *)
Theorem makeWorkspacePackagesAbsolute_rewrites_file_deps
    (pathToPackage : string -> option string)
    (pkgJson pkgJson' : DepInstaller.PkgJson) (updatedDeps : list string) :
  DepInstaller.makeWorkspacePackagesAbsolute pathToPackage pkgJson
    = Some (pkgJson', updatedDeps) ->
  updatedDeps = DepInstaller.all_file_deps pkgJson /\
  option_Forall2 (Forall2 (DepInstaller.rewritten pathToPackage))
    (DepInstaller.dependencies pkgJson) (DepInstaller.dependencies pkgJson') /\
  option_Forall2 (Forall2 (DepInstaller.rewritten pathToPackage))
    (DepInstaller.devDependencies pkgJson) (DepInstaller.devDependencies pkgJson') /\
  option_Forall2 (Forall2 (DepInstaller.rewritten pathToPackage))
    (DepInstaller.optionalDependencies pkgJson)
    (DepInstaller.optionalDependencies pkgJson').
Proof.
  unfold DepInstaller.makeWorkspacePackagesAbsolute, DepInstaller.all_file_deps.
  destruct (DepInstaller.absolutize_field pathToPackage
              (DepInstaller.dependencies pkgJson) []) as [[d1 u1]|] eqn:H1; [|done].
  destruct (DepInstaller.absolutize_field pathToPackage
              (DepInstaller.devDependencies pkgJson) u1) as [[d2 u2]|] eqn:H2; [|done].
  destruct (DepInstaller.absolutize_field pathToPackage
              (DepInstaller.optionalDependencies pkgJson) u2) as [[d3 u3]|] eqn:H3;
    [|done].
  intros [= <- <-]. simpl.
  apply absolutize_field_Some in H1 as [-> Hd1].
  apply absolutize_field_Some in H2 as [-> Hd2].
  apply absolutize_field_Some in H3 as [-> Hd3].
  split_and!; [|done..]. by rewrite <- app_assoc.
Qed.

Lemma makeWorkspacePackagesAbsolute_rewrites_file_deps_witness :
  ["@packages/ts"; "@tooling/system-tests"] =
  DepInstaller.all_file_deps
    (DepInstaller.mkPkgJson
       (Some [("lodash", "^4.17.21"); ("@packages/ts", "file:../../packages/ts")])
       None
       (Some [("@tooling/system-tests", "file:../.."); ("chai", "4.2.0")])).
Proof.
  destruct (makeWorkspacePackagesAbsolute_rewrites_file_deps
              (fun dep => Some ("/repo/node_modules/" +:+ dep))
              (DepInstaller.mkPkgJson
                 (Some [("lodash", "^4.17.21"); ("@packages/ts", "file:../../packages/ts")])
                 None
                 (Some [("@tooling/system-tests", "file:../.."); ("chai", "4.2.0")]))
              (DepInstaller.mkPkgJson
                 (Some [("lodash", "^4.17.21");
                        ("@packages/ts", "file:/repo/node_modules/@packages/ts")])
                 None
                 (Some [("@tooling/system-tests",
                         "file:/repo/node_modules/@tooling/system-tests");
                        ("chai", "4.2.0")]))
              ["@packages/ts"; "@tooling/system-tests"])
    as [Hupdated _].
  - reflexivity.
  - exact Hupdated.
Defined.

(** X18.  [makeWorkspacePackagesAbsolute] throws exactly when some entry
    whose version starts with [file:] names a package that cannot be
    found; entries with other versions are never looked up. *)
Theorem makeWorkspacePackagesAbsolute_fails_on_unknown_package
    (pathToPackage : string -> option string) (pkgJson : DepInstaller.PkgJson) :
  DepInstaller.makeWorkspacePackagesAbsolute pathToPackage pkgJson = None <->
  exists dep, dep ∈ DepInstaller.all_file_deps pkgJson /\ pathToPackage dep = None.
Proof.
  unfold DepInstaller.makeWorkspacePackagesAbsolute, DepInstaller.all_file_deps.
  setoid_rewrite elem_of_app. setoid_rewrite elem_of_app.
  destruct (DepInstaller.absolutize_field pathToPackage
              (DepInstaller.dependencies pkgJson) []) as [[d1 u1]|] eqn:H1; cycle 1.
  { apply absolutize_field_None in H1 as (dep & Hin & Hdep). split; [|done].
    intros _. exists dep. auto. }
  destruct (DepInstaller.absolutize_field pathToPackage
              (DepInstaller.devDependencies pkgJson) u1) as [[d2 u2]|] eqn:H2; cycle 1.
  { apply absolutize_field_None in H2 as (dep & Hin & Hdep). split; [|done].
    intros _. exists dep. auto. }
  destruct (DepInstaller.absolutize_field pathToPackage
              (DepInstaller.optionalDependencies pkgJson) u2) as [[d3 u3]|] eqn:H3;
    cycle 1.
  { apply absolutize_field_None in H3 as (dep & Hin & Hdep). split; [|done].
    intros _. exists dep. auto. }
  split; [done|]. intros (dep & [Hin|[Hin|Hin]] & Hdep).
  - assert (DepInstaller.absolutize_field pathToPackage
              (DepInstaller.dependencies pkgJson) [] = None) as H
      by (apply absolutize_field_None; eauto). congruence.
  - assert (DepInstaller.absolutize_field pathToPackage
              (DepInstaller.devDependencies pkgJson) u1 = None) as H
      by (apply absolutize_field_None; eauto). congruence.
  - assert (DepInstaller.absolutize_field pathToPackage
              (DepInstaller.optionalDependencies pkgJson) u2 = None) as H
      by (apply absolutize_field_None; eauto). congruence.
Qed.

(** X19.  Run on the object it has written back,
    [makeWorkspacePackagesAbsolute] writes the same object and returns
    the same list: a rewritten version still starts with [file:] and is
    rewritten to itself. *)
Theorem makeWorkspacePackagesAbsolute_again
    (pathToPackage : string -> option string)
    (pkgJson pkgJson' : DepInstaller.PkgJson) (updatedDeps : list string) :
  DepInstaller.makeWorkspacePackagesAbsolute pathToPackage pkgJson
    = Some (pkgJson', updatedDeps) ->
  DepInstaller.makeWorkspacePackagesAbsolute pathToPackage pkgJson'
    = Some (pkgJson', updatedDeps).
Proof.
  unfold DepInstaller.makeWorkspacePackagesAbsolute.
  destruct (DepInstaller.absolutize_field pathToPackage
              (DepInstaller.dependencies pkgJson) []) as [[d1 u1]|] eqn:H1; [|done].
  destruct (DepInstaller.absolutize_field pathToPackage
              (DepInstaller.devDependencies pkgJson) u1) as [[d2 u2]|] eqn:H2; [|done].
  destruct (DepInstaller.absolutize_field pathToPackage
              (DepInstaller.optionalDependencies pkgJson) u2) as [[d3 u3]|] eqn:H3;
    [|done].
  intros [= <- <-]. simpl.
  rewrite (absolutize_field_again pathToPackage _ _ _ _ [] H1).
  rewrite (absolutize_field_again pathToPackage _ _ _ _
             ([] ++ DepInstaller.field_deps (DepInstaller.dependencies pkgJson)) H2).
  rewrite (absolutize_field_again pathToPackage _ _ _ _
             (([] ++ DepInstaller.field_deps (DepInstaller.dependencies pkgJson)) ++
              DepInstaller.field_deps (DepInstaller.devDependencies pkgJson)) H3).
  apply absolutize_field_Some in H1 as [-> _].
  apply absolutize_field_Some in H2 as [-> _].
  apply absolutize_field_Some in H3 as [-> _].
  done.
Qed.

Lemma makeWorkspacePackagesAbsolute_again_witness :
  DepInstaller.makeWorkspacePackagesAbsolute
    (fun dep => Some ("/repo/node_modules/" +:+ dep))
    (DepInstaller.mkPkgJson
       (Some [("lodash", "^4.17.21");
              ("@packages/ts", "file:/repo/node_modules/@packages/ts")])
       None None)
  = Some (DepInstaller.mkPkgJson
            (Some [("lodash", "^4.17.21");
                   ("@packages/ts", "file:/repo/node_modules/@packages/ts")])
            None None,
          ["@packages/ts"]).
Proof.
  apply (makeWorkspacePackagesAbsolute_again
           (fun dep => Some ("/repo/node_modules/" +:+ dep))
           (DepInstaller.mkPkgJson
              (Some [("lodash", "^4.17.21"); ("@packages/ts", "file:../../packages/ts")])
              None None)).
  reflexivity.
Defined.

(** X20.  [loadProjects] keeps every listed project as it is, with all
    its fields and in its place, and appends one entry that has the
    [projectRoot] only for every root the cache returns, without looking
    for repeats: loading the same cache twice lists its roots twice.  It
    makes no further API call and leaves the active project alone.  A
    root that was loaded is known to [addProject], which then adds nothing
    and does not write the cache. *)
Theorem loadProjects_appends_cached
    (cached : list string) (ctx : ProjectActions.Ctx) :
  ProjectActions.projects (ProjectActions.loadProjects cached ctx) =
    ProjectActions.projects ctx ++
    map (fun root => ProjectActions.mkProject root []) cached /\
  ProjectActions.projects
    (ProjectActions.loadProjects cached (ProjectActions.loadProjects cached ctx)) =
    ProjectActions.projects ctx ++
    map (fun root => ProjectActions.mkProject root []) cached ++
    map (fun root => ProjectActions.mkProject root []) cached /\
  map ProjectActions.projectRoot
      (ProjectActions.projects (ProjectActions.loadProjects cached ctx)) =
    map ProjectActions.projectRoot (ProjectActions.projects ctx) ++ cached /\
  ProjectActions.api_calls (ProjectActions.loadProjects cached ctx) =
    ProjectActions.api_calls ctx /\
  ProjectActions.activeProject (ProjectActions.loadProjects cached ctx) =
    ProjectActions.activeProject ctx /\
  (forall env path root,
     ProjectActions.getDirectoryPath env path = ProjectActions.Ok root ->
     root ∈ cached ->
     ProjectActions.addProject env path false (ProjectActions.loadProjects cached ctx) =
       (ProjectActions.loadProjects cached ctx, ProjectActions.Ok tt)).
Proof.
  assert (forall c, map ProjectActions.projectRoot
                      (ProjectActions.projects (ProjectActions.loadProjects cached c)) =
                    map ProjectActions.projectRoot (ProjectActions.projects c) ++ cached)
    as Hroots.
  { intros c. simpl. rewrite map_app, map_map. simpl. by rewrite map_id. }
  split_and!; [done| |apply Hroots|done|done|].
  - simpl. by rewrite <- app_assoc.
  - intros env path root Hdir Hin. unfold ProjectActions.addProject. rewrite Hdir.
    assert (ProjectActions.has_root root
              (ProjectActions.projects (ProjectActions.loadProjects cached ctx)) = true)
      as ->; [|done].
    apply has_root_elem. rewrite Hroots, elem_of_app. by right.
Qed.

Lemma loadProjects_appends_cached_witness :
  ProjectActions.addProject
    (ProjectActions.mkEnv (fun p => ("/w", "app")) (fun d b => d +:+ "/" +:+ b)
       (fun _ => Some true) (fun _ _ => ProjectActions.Ok false) ProjectActions.projects)
    "/w/app" false
    (ProjectActions.loadProjects ["/w/app"; "/x"] (ProjectActions.mkCtx [] None []))
  = (ProjectActions.loadProjects ["/w/app"; "/x"] (ProjectActions.mkCtx [] None []),
     ProjectActions.Ok tt).
Proof.
  destruct (loadProjects_appends_cached ["/w/app"; "/x"] (ProjectActions.mkCtx [] None []))
    as (_ & _ & _ & _ & _ & Hknown).
  apply (Hknown _ "/w/app" "/w/app").
  - reflexivity.
  - apply list_elem_of_In. left. reflexivity.
Defined.
